(** * LegalLens.AI: the persistent store and the batch upload pipeline

    A shallow embedding of [services/storageService.ts] (the local-storage
    backed store) and of the handlers of [components/ContractUpload.tsx]
    (file submission, batch analysis, removal) and of the two controls
    that take items out of the batch, with the properties the
    specification states about them.

    Conventions.
    - A string held by [localStorage] is represented by what [JSON.parse]
      makes of it: the empty string, a text [JSON.parse] rejects, the
      array it denotes, or a value that is not an array.  An array whose
      elements do not have the shape of the TypeScript type of the key is
      not represented.
    - JavaScript exceptions are explicit: a computation ends in [Return v]
      or in [Throw e]; code that touches [localStorage] threads the storage
      through a small state-and-exception monad.
    - The browser and the analysis service are parameters: whether
      [localStorage.setItem] accepts a write, given the texts held and the
      text to store, what the file reader and the analysis client answer,
      which identifier and clock value a dispatch draws.
    - A handler runs on the component state of the render it was created
      in, and no other event is handled while it awaits.  Timers and
      [console] output are left out. *)

From Stdlib Require Import ZArith Lia.
From stdpp Require Import base option list strings sorting.

Open Scope string_scope.
Open Scope list_scope.
Open Scope Z_scope.

(** ** JavaScript errors and completions *)

(** The two fields of an exception the store inspects: [e.name] and
    [e.code] ([undefined] on errors that are not DOM exceptions). *)
Record JsError := mkError { name : string; code : option Z }.

Definition SyntaxError : JsError := mkError "SyntaxError" None.
Definition TypeError : JsError := mkError "TypeError" None.

Inductive completion (A : Type) : Type :=
| Return (a : A)
| Throw (e : JsError).
Arguments Return {A} a.
Arguments Throw {A} e.

(** [try { body } catch (e) { handler(e) }] for code without side effects. *)
Definition try_catch {A} (body : completion A) (handler : JsError → A) : A :=
  match body with
  | Return a => a
  | Throw e => handler e
  end.

(** ** Data model (the shapes of [types.ts], as the code uses them) *)

Inductive RiskLevel := Low | Medium | High.

Module Clause.
Record t := mk {
  id : string;
  text : string;
  explanation : string;
  riskLevel : RiskLevel;
  riskyKeywords : list string;
  reason : string
}.
End Clause.

Module ContractAnalysis.
Record t := mk {
  summary : string;
  overallRisk : RiskLevel;
  riskScore : option Z;
  clauses : list Clause.t;
  fullText : option string
}.
End ContractAnalysis.

Module Contract.
Record t := mk {
  id : string;
  userId : string;
  fileName : string;
  uploadDate : Z;
  status : string;
  analysis : option ContractAnalysis.t;
  fileData : option string;
  mimeType : string
}.

(** [{ ...contract, fileData: undefined }] *)
Definition without_fileData (c : t) : t :=
  mk (id c) (userId c) (fileName c) (uploadDate c) (status c)
     (analysis c) None (mimeType c).
End Contract.

Module RecentAnalysis.
Record t := mk {
  id : string;
  name : string;
  createdAt : string;
  sourceType : string;
  fileName : string;
  rawText : string;
  riskScore : Z;
  riskSummary : RiskLevel;
  summary : list string;
  clauses : list Clause.t
}.
End RecentAnalysis.

(** ** [localStorage] *)

(** A JSON value that is not an array.  The code looks at no part of such
    a value: it only calls array methods on it. *)
Inductive NonArray :=
| JNull
| JBoolean (b : bool)
| JNumber (n : Z)
| JString (s : string)
| JObject.

(** The text stored under a key, seen through [JSON.parse]. *)
Inductive Text (A : Type) : Type :=
| EmptyText                (* the empty string: falsy, and rejected by JSON.parse *)
| Malformed                (* any other text JSON.parse rejects *)
| Json (l : list A)        (* the text of an array *)
| JsonOther (v : NonArray). (* a text that parses to a value that is not an array *)
Arguments EmptyText {A}.
Arguments Malformed {A}.
Arguments Json {A} l.
Arguments JsonOther {A} v.

(** What [JSON.parse] returns, and what a variable typed as an array then
    holds. *)
Inductive Parsed (A : Type) : Type :=
| Array (l : list A)
| NotArray (v : NonArray).
Arguments Array {A} l.
Arguments NotArray {A} v.

(** What [setItem] is asked to store: [JSON.stringify] of an array. *)
Inductive Payload :=
| PContracts (l : list Contract.t)
| PRecent (l : list RecentAnalysis.t).

(** The two keys the upload pipeline reads and writes,
    [STORAGE_KEYS.CONTRACTS] and [STORAGE_KEYS.RECENT_ANALYSES] (the user
    keys are left out); [None] is a key that is not set
    ([getItem] returns [null]).  [setItem_calls] is the history of the
    [setItem] calls made so far, oldest first, accepted or not; neither
    the code nor the browser reads it. *)
Record LocalStorage := mkStorage {
  CONTRACTS : option (Text Contract.t);
  RECENT_ANALYSES : option (Text RecentAnalysis.t);
  setItem_calls : list Payload
}.

Definition empty_storage : LocalStorage := mkStorage None None [].

Definition JSON_parse {A} (s : Text A) : completion (Parsed A) :=
  match s with
  | Json l => Return (Array l)
  | JsonOther v => Return (NotArray v)
  | EmptyText | Malformed => Throw SyntaxError
  end.

(** A call [x.method(...)] of an array method ([filter], [find],
    [findIndex]) on a parsed value: on [null] the property access throws,
    on any other value that is not an array the property is not a function
    and the call throws; both are a [TypeError]. *)
Definition array_call {A B} (x : Parsed A) (method : list A → B) : completion B :=
  match x with
  | Array l => Return (method l)
  | NotArray _ => Throw TypeError
  end.

(** [item || '[]'] *)
Definition or_empty_array {A} (item : option (Text A)) : Text A :=
  match item with
  | None | Some EmptyText => Json []
  | Some s => s
  end.

(** [e.name === 'QuotaExceededError' || e.code === 22 || e.code === 1014] *)
Definition isQuotaExceeded (e : JsError) : bool :=
  bool_decide (name e = "QuotaExceededError")
  || bool_decide (code e = Some 22)
  || bool_decide (code e = Some 1014).

(** ** [Array.prototype.sort] with a comparator

    The sort is stable; a stable insertion sort computes the same array. *)
Section Array_sort.
Context {A : Type} (cmp : A → A → Z).

Fixpoint sort_insert (x : A) (l : list A) : list A :=
  match l with
  | [] => [x]
  | y :: ys => if cmp x y <=? 0 then x :: y :: ys else y :: sort_insert x ys
  end.

Definition Array_sort (l : list A) : list A := foldr sort_insert [] l.
End Array_sort.

(** ** The state-and-exception monad of the store *)

Definition M (A : Type) : Type := LocalStorage → completion A * LocalStorage.

Definition ret {A} (a : A) : M A := λ ls, (Return a, ls).
Definition throw {A} (e : JsError) : M A := λ ls, (Throw e, ls).
Definition bind {A B} (m : M A) (k : A → M B) : M B :=
  λ ls, match m ls with
        | (Return a, ls') => k a ls'
        | (Throw e, ls') => (Throw e, ls')
        end.
Definition lift {A} (c : completion A) : M A := λ ls, (c, ls).
Definition try_catchM {A} (body : M A) (handler : JsError → M A) : M A :=
  λ ls, match body ls with
        | (Return a, ls') => (Return a, ls')
        | (Throw e, ls') => handler e ls'
        end.

Notation "'let!' x ':=' m 'in' k" := (bind m (λ x, k))
  (at level 10, x name, m at level 100, k at level 200, only parsing).
Notation "'run!' m 'in' k" := (bind m (λ _, k))
  (at level 10, m at level 100, k at level 200, only parsing).

(** ** storageService *)

(** What the browser holds: the texts under the keys.  The history of the
    calls is not part of it. *)
Definition held (ls : LocalStorage) : LocalStorage :=
  mkStorage (CONTRACTS ls) (RECENT_ANALYSES ls) [].

Section storageService.
(** The browser's verdict on a [setItem] call, given what it holds: [None]
    when the write is accepted, [Some e] when [setItem] throws [e] (and
    stores nothing). *)
Variable setItem_throws : LocalStorage → Payload → option JsError.

Definition getItem_CONTRACTS : M (option (Text Contract.t)) :=
  λ ls, (Return (CONTRACTS ls), ls).
Definition getItem_RECENT_ANALYSES : M (option (Text RecentAnalysis.t)) :=
  λ ls, (Return (RECENT_ANALYSES ls), ls).

Definition setItem_CONTRACTS (l : list Contract.t) : M unit :=
  λ ls,
    let calls := setItem_calls ls ++ [PContracts l] in
    match setItem_throws (held ls) (PContracts l) with
    | Some e => (Throw e, mkStorage (CONTRACTS ls) (RECENT_ANALYSES ls) calls)
    | None => (Return (), mkStorage (Some (Json l)) (RECENT_ANALYSES ls) calls)
    end.

Definition setItem_RECENT_ANALYSES (l : list RecentAnalysis.t) : M unit :=
  λ ls,
    let calls := setItem_calls ls ++ [PRecent l] in
    match setItem_throws (held ls) (PRecent l) with
    | Some e => (Throw e, mkStorage (CONTRACTS ls) (RECENT_ANALYSES ls) calls)
    | None => (Return (), mkStorage (CONTRACTS ls) (Some (Json l)) calls)
    end.

(** *** getContracts *)

Definition getContracts_body (userId : string) (ls : LocalStorage)
  : completion (list Contract.t) :=
  match JSON_parse (or_empty_array (CONTRACTS ls)) with
  | Return allContracts =>
      array_call allContracts
        (λ l, Array_sort (λ a b, Contract.uploadDate b - Contract.uploadDate a)
                (filter (λ c, Contract.userId c = userId) l))
  | Throw e => Throw e
  end.

Definition getContracts (userId : string) (ls : LocalStorage) : list Contract.t :=
  try_catch (getContracts_body userId ls) (λ _, []).

(** *** saveContract *)

(** [allContracts[index] = c] if some element has [c]'s id, else [push]. *)
Definition upsert (c : Contract.t) (allContracts : list Contract.t)
  : list Contract.t :=
  match list_find (λ x, Contract.id x = Contract.id c) allContracts with
  | Some (index, _) => <[index := c]> allContracts
  | None => allContracts ++ [c]
  end.

Definition saveToStorage (contractToSave : Contract.t) : M unit :=
  let! item := getItem_CONTRACTS in
  let! allContracts := lift (JSON_parse (or_empty_array item)) in
  let! updated := lift (array_call allContracts (upsert contractToSave)) in
  setItem_CONTRACTS updated.

Definition saveContract (contract : Contract.t) : M Contract.t :=
  try_catchM
    (run! saveToStorage contract in ret contract)
    (λ e,
       if isQuotaExceeded e then
         let lightContract := Contract.without_fileData contract in
         try_catchM
           (run! saveToStorage lightContract in ret contract)
           (λ retryError, throw retryError)
       else throw e).

(** *** getContractById *)

Definition getContractById_body (id : string) (ls : LocalStorage)
  : completion (option Contract.t) :=
  match JSON_parse (or_empty_array (CONTRACTS ls)) with
  | Return allContracts =>
      array_call allContracts (λ l, snd <$> list_find (λ c, Contract.id c = id) l)
  | Throw e => Throw e
  end.

Definition getContractById (id : string) (ls : LocalStorage) : option Contract.t :=
  try_catch (getContractById_body id ls) (λ _, None).

(** *** Recent analyses *)

(** [getRecentAnalyses] hands on what [JSON.parse] returns, array or not. *)
Definition getRecentAnalyses_body (ls : LocalStorage)
  : completion (Parsed RecentAnalysis.t) :=
  match RECENT_ANALYSES ls with
  | None | Some EmptyText => Return (Array [])
  | Some stored => JSON_parse stored
  end.

Definition getRecentAnalyses (ls : LocalStorage) : Parsed RecentAnalysis.t :=
  try_catch (getRecentAnalyses_body ls) (λ _, Array []).

Definition saveRecentAnalysis (analysis : RecentAnalysis.t) : M unit :=
  try_catchM
    (λ ls,
       let recent := getRecentAnalyses ls in
       match
         array_call recent
           (filter (λ item, RecentAnalysis.id item ≠ RecentAnalysis.id analysis))
       with
       | Return filtered =>
           let filtered := analysis :: filtered in
           let trimmed := take 10 filtered in
           setItem_RECENT_ANALYSES trimmed ls
       | Throw e => (Throw e, ls)
       end)
    (λ _, ret ()).

Definition clearRecentAnalyses : M unit :=
  λ ls, (Return (), mkStorage (CONTRACTS ls) None (setItem_calls ls)).

End storageService.

(** ** ContractUpload *)

Module User.
Record t := mk { id : string }.
End User.

(** A browser [File] object.  [ref] is the identity of the object, which is
    what [===] compares; the other fields are the properties the component
    reads. *)
Module File.
Record t := mk { ref : nat; name : string; type : string; size : Z }.
End File.

Inductive Status := pending | processing | success | error.

#[global] Instance Status_eq_dec : EqDecision Status.
Proof. solve_decision. Defined.

Module FileUploadState.
Record t := mk {
  file : File.t;
  status : Status;
  error : option string;
  contract : option Contract.t
}.
End FileUploadState.

(** The two pieces of component state the handlers write
    ([useState] cells [files] and [globalError]). *)
Record ComponentState := mkState {
  files : list FileUploadState.t;
  globalError : option string
}.

Definition validTypes : list string :=
  ["application/pdf"; "image/jpeg"; "image/png"; "image/webp"].

Definition quote : string := String (Ascii.ascii_of_nat 34) EmptyString.

(** The template literal passed to [setGlobalError]. *)
Definition invalid_format_message (file : File.t) : string :=
  "File " +:+ quote +:+ File.name file +:+ quote
  +:+ " has an invalid format. Please upload PDF or Images.".

(** *** validateAndAddFiles *)

(** One turn of the [forEach] loop, on the pair of [newFiles] and the
    pending value of [globalError]. *)
Definition validate_step (acc : list FileUploadState.t * option string) (file : File.t)
  : list FileUploadState.t * option string :=
  if bool_decide (File.type file ∈ validTypes)
  then (acc.1 ++ [FileUploadState.mk file pending None None], acc.2)
  else (acc.1, Some (invalid_format_message file)).

Definition validateAndAddFiles (fileList : list File.t) (st : ComponentState)
  : ComponentState :=
  let '(newFiles, err) := foldl validate_step ([], globalError st) fileList in
  if bool_decide (0 < length newFiles)%nat
  then mkState (files st ++ newFiles) None
  else mkState (files st) err.

(** *** handleRemoveFile and the button that calls it *)

(** [prev.filter((_, i) => i !== index)] *)
Fixpoint filter_index {A} (keep : nat → bool) (i : nat) (l : list A) : list A :=
  match l with
  | [] => []
  | x :: xs => if keep i then x :: filter_index keep (S i) xs
               else filter_index keep (S i) xs
  end.

Definition handleRemoveFile (index : nat) (st : ComponentState) : ComponentState :=
  mkState (filter_index (λ i, negb (i =? index)%nat) 0 (files st)) (globalError st).

(** The row of an item shows the remove button only under
    [fileState.status === 'pending']. *)
Definition remove_button_rendered (fileState : FileUploadState.t) : bool :=
  bool_decide (FileUploadState.status fileState = pending).

(** A click on the remove button of row [index], when the row has one. *)
Definition click_remove (index : nat) (st : ComponentState) : ComponentState :=
  match files st !! index with
  | Some fileState =>
      if remove_button_rendered fileState then handleRemoveFile index st else st
  | None => st
  end.

Definition hasProcessing (st : ComponentState) : bool :=
  bool_decide (Exists (λ f, FileUploadState.status f = processing) (files st)).

(** *** Clear All *)

(** The header of the file list, rendered when [files] is not empty,
    shows the Clear All button under
    [files.some(f => f.status === 'pending')]; the button is [disabled]
    under [hasProcessing]. *)
Definition clear_all_rendered (st : ComponentState) : bool :=
  bool_decide (0 < length (files st))%nat
  && bool_decide (Exists (λ f, FileUploadState.status f = pending) (files st)).

Definition clear_all_enabled (st : ComponentState) : bool :=
  clear_all_rendered st && negb (hasProcessing st).

(** [onClick={() => setFiles([])}] *)
Definition handleClearAll (st : ComponentState) : ComponentState :=
  mkState [] (globalError st).

(** A click on Clear All, when the button is there and not disabled. *)
Definition click_clear_all (st : ComponentState) : ComponentState :=
  if clear_all_enabled st then handleClearAll st else st.

(** The two controls of the component that take items out of the batch. *)
Inductive Click :=
| ClickRemove (index : nat)
| ClickClearAll.

Definition click (c : Click) (st : ComponentState) : ComponentState :=
  match c with
  | ClickRemove index => click_remove index st
  | ClickClearAll => click_clear_all st
  end.

(** *** The Analyze button *)

Definition every_success (st : ComponentState) : bool :=
  bool_decide (Forall (λ f, FileUploadState.status f = success) (files st)).

Definition allSuccess (st : ComponentState) : bool :=
  bool_decide (0 < length (files st))%nat && every_success st.

(** The file list and its action bar are rendered when [files] is not
    empty; the bar shows the Analyze button unless [allSuccess], and the
    button is [disabled] under [hasProcessing || files.every(success)]. *)
Definition analyze_button_enabled (st : ComponentState) : bool :=
  bool_decide (0 < length (files st))%nat
  && negb (allSuccess st)
  && negb (hasProcessing st || every_success st).

(** *** processFile and handleAnalyzeAll *)

(** What one call of [handleAnalyzeAll] leaves behind: the component state,
    the storage, the argument of [onUploadComplete] if it was called, and
    the exception the handler ended with, if any. *)
Record Outcome := mkOutcome {
  state_after : ComponentState;
  storage_after : LocalStorage;
  onUploadComplete : option Contract.t;
  raised : option JsError
}.

Section ContractUpload.
Variable setItem_throws : LocalStorage → Payload → option JsError.
(** The component's [user] prop. *)
Variable user : User.t.
(** The file reader: the base64 part of the data URL, or a failure. *)
Variable base64Promise : File.t → completion string.
(** The analysis client, on the base64 data and the media type. *)
Variable analyzeContract : string → string → completion ContractAnalysis.t.
(** The identifier and the clock value drawn while a file is processed. *)
Variable generateId : File.t → string.
Variable Date_now : File.t → Z.
Variable toISOString : Z → string.

Definition newContract_of (file : File.t) (base64Data : string)
    (analysis : ContractAnalysis.t) : Contract.t :=
  Contract.mk (generateId file) (User.id user) (File.name file) (Date_now file)
    "analyzed" (Some analysis) (Some base64Data) (File.type file).

Definition recentAnalysis_of (newContract : Contract.t)
    (analysis : ContractAnalysis.t) : RecentAnalysis.t :=
  RecentAnalysis.mk (Contract.id newContract) (Contract.fileName newContract)
    (toISOString (Contract.uploadDate newContract)) "file"
    (Contract.fileName newContract)
    (default EmptyString (ContractAnalysis.fullText analysis))
    (default 0 (ContractAnalysis.riskScore analysis))
    (ContractAnalysis.overallRisk analysis)
    [ContractAnalysis.summary analysis]
    (ContractAnalysis.clauses analysis).

(** The [try] block of [processFile]. *)
Definition processFile_try (fileState : FileUploadState.t) : M FileUploadState.t :=
  let file := FileUploadState.file fileState in
  let! base64Data := lift (base64Promise file) in
  let! analysis := lift (analyzeContract base64Data (File.type file)) in
  let newContract := newContract_of file base64Data analysis in
  run! saveContract setItem_throws newContract in
  let recentAnalysis := recentAnalysis_of newContract analysis in
  run! saveRecentAnalysis setItem_throws recentAnalysis in
  ret (FileUploadState.mk file success (FileUploadState.error fileState)
         (Some newContract)).

Definition processFile (fileState : FileUploadState.t) (ls : LocalStorage)
  : FileUploadState.t * LocalStorage :=
  match processFile_try fileState ls with
  | (Return res, ls') => (res, ls')
  | (Throw _, ls') =>
      (FileUploadState.mk (FileUploadState.file fileState) error
         (Some "Failed to analyze") (FileUploadState.contract fileState), ls')
  end.

(** [await Promise.all(pendingFiles.map(processFile))]: one result per
    pending file, in the order of [pendingFiles].  The part of a dispatch
    that touches the storage runs without interruption; the dispatches
    are taken to reach the storage in batch order. *)
Fixpoint Promise_all_processFile (pendingFiles : list FileUploadState.t)
    (ls : LocalStorage) : list FileUploadState.t * LocalStorage :=
  match pendingFiles with
  | [] => ([], ls)
  | f :: rest =>
      let '(res, ls1) := processFile f ls in
      let '(results, ls2) := Promise_all_processFile rest ls1 in
      (res :: results, ls2)
  end.

(** [f.file === res.file] *)
Definition same_file (res f : FileUploadState.t) : Prop :=
  File.ref (FileUploadState.file f) = File.ref (FileUploadState.file res).

#[global] Instance same_file_dec res f : Decision (same_file res f).
Proof. unfold same_file. apply _. Defined.

(** One turn of [results.forEach] on [next]. *)
Definition merge_result (next : list FileUploadState.t) (res : FileUploadState.t)
  : list FileUploadState.t :=
  match list_find (same_file res) next with
  | Some (idx, _) => <[idx := res]> next
  | None => next
  end.

Definition mark_processing (f : FileUploadState.t) : FileUploadState.t :=
  if bool_decide (FileUploadState.status f = pending)
  then FileUploadState.mk (FileUploadState.file f) processing
         (FileUploadState.error f) (FileUploadState.contract f)
  else f.

Definition handleAnalyzeAll (st : ComponentState) (ls : LocalStorage) : Outcome :=
  let prev := map mark_processing (files st) in
  let pendingFiles := filter (λ f, FileUploadState.status f = pending) (files st) in
  let '(results, ls') := Promise_all_processFile pendingFiles ls in
  let next := foldl merge_result prev results in
  let st' := mkState next (globalError st) in
  if bool_decide (length (files st) = 1%nat) then
    match results with
    | [] => mkOutcome st' ls' None (Some TypeError)   (* results[0] is undefined *)
    | res0 :: _ =>
        if bool_decide (FileUploadState.status res0 = success) then
          mkOutcome st' ls' (FileUploadState.contract res0) None
        else mkOutcome st' ls' None None
    end
  else mkOutcome st' ls' None None.

End ContractUpload.

(** ** geminiService *)

(** [!s] on a string: only the empty string is falsy. *)
Definition is_empty (s : string) : bool := bool_decide (s = EmptyString).

(** [text || fallback] on [response.text], which may be [undefined]. *)
Definition text_or (text : option string) (fallback : string) : string :=
  match text with
  | Some t => if is_empty t then fallback else t
  | None => fallback
  end.

Module ChatMessage.
Record t := mk { role : string; text : string }.
End ChatMessage.

(** [new Error(message)]; the message is not represented. *)
Definition Error : JsError := mkError "Error" None.

Module geminiService.
Section geminiService.
(** [process.env.API_KEY || '']. *)
Variable API_KEY : string.
(** [ai.models.generateContent] for each kind of request: the [text] of the
    response or a failure.  The prompt sent is a function of the arguments
    given here. *)
Variable generateContent_analysis : string → string → completion (option string).
Variable generateContent_question : string → string → completion (option string).
Variable generateContent_chat :
  list ChatMessage.t → string → completion (option string).
(** [JSON.parse(text) as ContractAnalysis]. *)
Variable JSON_parse_analysis : string → completion ContractAnalysis.t.

Definition analyzeContract (base64Data mimeType : string)
  : completion ContractAnalysis.t :=
  if is_empty API_KEY then Throw Error
  else
    match generateContent_analysis mimeType base64Data with
    | Return text =>
        match text with
        | Some t => if is_empty t then Throw Error else JSON_parse_analysis t
        | None => Throw Error
        end
    | Throw e => Throw e
    end.

Definition askClauseQuestion (clauseText question : string) : string :=
  if is_empty API_KEY then "API Key missing."
  else
    try_catch
      (match generateContent_question clauseText question with
       | Return text => Return (text_or text "Could not generate an answer.")
       | Throw e => Throw e
       end)
      (λ _, "Sorry, I couldn't answer that right now.").

(** [history.map(...)] followed by [contents.push] of the new user message. *)
Definition chat_contents (history : list ChatMessage.t) (newMessage : string)
  : list ChatMessage.t :=
  ((λ msg, ChatMessage.mk (ChatMessage.role msg) (ChatMessage.text msg)) <$> history)
  ++ [ChatMessage.mk "user" newMessage].

Definition sendChatMessage (history : list ChatMessage.t)
    (newMessage contractContext : string) : string :=
  if is_empty API_KEY then "API Key missing."
  else
    try_catch
      (match generateContent_chat (chat_contents history newMessage)
               contractContext with
       | Return text => Return (text_or text "I couldn't generate a response.")
       | Throw e => Throw e
       end)
      (λ _, "Sorry, I'm having trouble connecting right now. Please try again.").
End geminiService.
End geminiService.

(** ** ClauseCard *)

Module HistoryItem.
Record t := mk { question : string; answer : string; timestamp : Z }.
End HistoryItem.

(** The [clause] prop of the card: a clause with its optional
    [conversationHistory]. *)
Module ClauseProp.
Record t := mk {
  clause : Clause.t;
  conversationHistory : option (list HistoryItem.t)
}.
End ClauseProp.

Module ClauseCard.
(** The state cells [handleAsk] writes. *)
Record State := mkState { question : string; loadingAnswer : bool }.

(** What [handleAsk] leaves: the state, and the argument of [onUpdate] when
    it was called. *)
Record Outcome := mkOutcome { state_after : State; onUpdate : option ClauseProp.t }.

Section handleAsk.
(** [String.prototype.trim]. *)
Variable trim : string → string.
(** [askClauseQuestion], and the clock. *)
Variable askClauseQuestion : string → string → string.
Variable Date_now : Z.
(** The props: the clause, and whether [onUpdate] was passed. *)
Variable clause : ClauseProp.t.
Variable has_onUpdate : bool.

Definition handleAsk (st : State) : Outcome :=
  if is_empty (trim (question st)) then mkOutcome st None
  else
    let currentQuestion := question st in
    let result :=
      askClauseQuestion (Clause.text (ClauseProp.clause clause)) currentQuestion in
    let st' := mkState EmptyString false in
    if has_onUpdate then
      let newHistoryItem := HistoryItem.mk currentQuestion result Date_now in
      let updatedClause :=
        ClauseProp.mk (ClauseProp.clause clause)
          (Some (default [] (ClauseProp.conversationHistory clause)
                 ++ [newHistoryItem])) in
      mkOutcome st' (Some updatedClause)
    else mkOutcome st' None.
End handleAsk.
End ClauseCard.

(** ** storageService: the user records *)

Module Accounts.
(** The text of one JSON object, seen through [JSON.parse]. *)
Inductive ObjectText (A : Type) : Type :=
| EmptyObjectText
| MalformedObject
| JsonObject (a : A).
Arguments EmptyObjectText {A}.
Arguments MalformedObject {A}.
Arguments JsonObject {A} a.

Section Accounts.
(** The [User] objects, their [id] and the object spread
    [{ ...a, ...b }]. *)
Context {U : Type}.
Variable user_id : U → string.
Variable spread : U → U → U.

Inductive Payload :=
| PUsers (l : list U)
| PCurrentUser (u : U).

(** The keys [STORAGE_KEYS.USERS] and [STORAGE_KEYS.CURRENT_USER], and the
    history of the [setItem] calls on them. *)
Record Storage := mkStorage {
  USERS : option (Text U);
  CURRENT_USER : option (ObjectText U);
  setItem_calls : list Payload
}.

Variable setItem_throws : Storage → Payload → option JsError.

Definition getUsers_body (ls : Storage) : completion (Parsed U) :=
  match USERS ls with
  | None | Some EmptyText => Return (Array [])
  | Some users => JSON_parse users
  end.

Definition getUsers (ls : Storage) : Parsed U :=
  try_catch (getUsers_body ls) (λ _, Array []).

(** [users[existingIndex] = {...users[existingIndex], ...user}] or [push]. *)
Definition put_user (user : U) (users : list U) : list U :=
  match list_find (λ u, user_id u = user_id user) users with
  | Some (existingIndex, existing) =>
      <[existingIndex := spread existing user]> users
  | None => users ++ [user]
  end.

(** [saveUser] returns nothing and catches what its body throws: the
    [findIndex] call on a value that is not an array, and [setItem]. *)
Definition saveUser (user : U) (ls : Storage) : Storage :=
  match array_call (getUsers ls) (put_user user) with
  | Return users =>
      let calls := setItem_calls ls ++ [PUsers users] in
      match setItem_throws ls (PUsers users) with
      | Some _ => mkStorage (USERS ls) (CURRENT_USER ls) calls
      | None => mkStorage (Some (Json users)) (CURRENT_USER ls) calls
      end
  | Throw _ => ls
  end.

Definition getCurrentUser_body (ls : Storage) : completion (option U) :=
  match CURRENT_USER ls with
  | None | Some EmptyObjectText => Return None
  | Some MalformedObject => Throw SyntaxError
  | Some (JsonObject u) => Return (Some u)
  end.

Definition getCurrentUser (ls : Storage) : option U :=
  try_catch (getCurrentUser_body ls) (λ _, None).

(** [setCurrentUser] has no [try]: what [setItem] throws reaches the
    caller. *)
Definition setCurrentUser (user : option U) (ls : Storage)
  : completion unit * Storage :=
  match user with
  | Some u =>
      let calls := setItem_calls ls ++ [PCurrentUser u] in
      match setItem_throws ls (PCurrentUser u) with
      | Some e => (Throw e, mkStorage (USERS ls) (CURRENT_USER ls) calls)
      | None => (Return (), mkStorage (USERS ls) (Some (JsonObject u)) calls)
      end
  | None => (Return (), mkStorage (USERS ls) None (setItem_calls ls))
  end.
End Accounts.
End Accounts.

(** ** Auth *)

Module Auth.
(** The form fields are JavaScript strings: sequences of UTF-16 code units,
    which is what the regular expression (without the [u] flag), [trim] and
    [length] work on. *)
Definition JsString : Type := list N.

Open Scope N_scope.

(** The class [\s], which is also what [trim] strips: WhiteSpace (TAB, VT,
    FF, the space separators, ZWNBSP) and LineTerminator (LF, CR, LS, PS). *)
Definition is_space (c : N) : bool :=
  (c =? 9) || (c =? 10) || (c =? 11) || (c =? 12) || (c =? 13) || (c =? 32)
  || (c =? 160) || (c =? 5760) || ((8192 <=? c) && (c <=? 8202))
  || (c =? 8232) || (c =? 8233) || (c =? 8239) || (c =? 8287)
  || (c =? 12288) || (c =? 65279).

Definition at_sign : N := 64.
Definition full_stop : N := 46.

(** The class [[^\s@]]. *)
Definition not_space_or_at (c : N) : bool := negb (is_space c) && negb (c =? at_sign).

Close Scope N_scope.

(** The pieces of a pattern that is a sequence of single characters and of
    repeated classes: [One p] matches one code unit in class [p], [Many p]
    is [p+]. *)
Inductive atom :=
| One (p : N → bool)
| Many (p : N → bool).

(** [/^ ... $/.test(s)] for such a sequence. *)
Fixpoint test (s : JsString) (pattern : list atom) {struct s} : bool :=
  match pattern, s with
  | [], [] => true
  | [], _ :: _ => false
  | _ :: _, [] => false
  | One p :: rest, c :: s' => p c && test s' rest
  | Many p :: rest, c :: s' => p c && (test s' rest || test s' (Many p :: rest))
  end.

(** [/^[^\s@]+@[^\s@]+\.[^\s@]+$/] *)
Definition email_pattern : list atom :=
  [Many not_space_or_at; One (N.eqb at_sign); Many not_space_or_at;
   One (N.eqb full_stop); Many not_space_or_at].

Definition validateEmail (email : JsString) : bool := test email email_pattern.

(** [String.prototype.trim] *)
Fixpoint trimStart (s : JsString) : JsString :=
  match s with
  | c :: s' => if is_space c then trimStart s' else s
  | [] => []
  end.

Definition trimEnd (s : JsString) : JsString := reverse (trimStart (reverse s)).

Definition trim (s : JsString) : JsString := trimEnd (trimStart s).

(** The state cells of the form. *)
Record State := mkState {
  isLogin : bool;
  email : JsString;
  password : JsString;
  name : JsString;
  error : option string
}.

(** What [handleSubmit] leaves: the error cell, and the arguments of
    [onLogin] when it was called. *)
Record Outcome := mkOutcome {
  error_after : option string;
  onLogin : option (JsString * JsString)
}.

(** The code units of ['User']. *)
Definition User_literal : JsString := [85; 115; 101; 114]%N.

Section handleSubmit.
(** [String.prototype.toLowerCase] *)
Variable toLowerCase : JsString → JsString.

Definition handleSubmit (st : State) : Outcome :=
  let normalizedEmail := toLowerCase (trim (email st)) in
  if negb (validateEmail normalizedEmail) then
    mkOutcome (Some "Please enter a valid email address.") None
  else if bool_decide (length (password st) < 6)%nat then
    mkOutcome (Some "Password must be at least 6 characters.") None
  else if negb (isLogin st) && bool_decide (trim (name st) = []) then
    mkOutcome (Some "Please enter your full name.") None
  else
    mkOutcome None
      (Some (normalizedEmail,
             if isLogin st then User_literal else trim (name st))).
End handleSubmit.
End Auth.

(** * Vocabulary of the properties *)

(** The documents the store holds, as the document functions get at them:
    the array [JSON.parse] returns, or what parsing or the array method
    throws. *)
Definition stored_contracts (ls : LocalStorage) : completion (list Contract.t) :=
  match JSON_parse (or_empty_array (CONTRACTS ls)) with
  | Return allContracts => array_call allContracts (λ l, l)
  | Throw e => Throw e
  end.

(** The entries of a parsed value that is an array; none otherwise. *)
Definition entries_of {A} (x : Parsed A) : list A :=
  match x with
  | Array l => l
  | NotArray _ => []
  end.

Abbreviation recent_ids := (fmap (M:=list) RecentAnalysis.id).
Abbreviation contract_ids := (fmap (M:=list) Contract.id).

(** The cache after a series of [saveRecentAnalysis] calls, oldest first. *)
Definition save_all (setItem_throws : LocalStorage → Payload → option JsError)
    (ls : LocalStorage) (entries : list RecentAnalysis.t) : LocalStorage :=
  foldl (λ ls analysis, (saveRecentAnalysis setItem_throws analysis ls).2) ls entries.

(** Reference order of a history given most recent first: every identifier
    once, at the place of its most recent insertion. *)
Fixpoint latest_first (history : list RecentAnalysis.t) : list RecentAnalysis.t :=
  match history with
  | [] => []
  | a :: older =>
      a :: filter (λ item, RecentAnalysis.id item ≠ RecentAnalysis.id a)
             (latest_first older)
  end.

(** The invariant of the cache, kept by every call whether or not the
    storage accepts the write. *)
Definition cache_ok (ls : LocalStorage) : Prop :=
  (length (entries_of (getRecentAnalyses ls)) ≤ 10)%nat
  ∧ NoDup (recent_ids (entries_of (getRecentAnalyses ls))).


(** A text that is not what the store writes: one [JSON.parse] rejects,
    or one that parses to something else than an array. *)
Definition corrupted {A} (item : option (Text A)) : bool :=
  match item with
  | Some Malformed | Some (JsonOther _) => true
  | _ => false
  end.

Definition pending_item (file : File.t) : FileUploadState.t :=
  FileUploadState.mk file pending None None.

Definition allowed (file : File.t) : Prop := File.type file ∈ validTypes.

#[global] Instance allowed_dec file : Decision (allowed file).
Proof. unfold allowed. apply _. Defined.

(** The item [processFile] returns from its [catch] block. *)
Definition error_item (fileState : FileUploadState.t) : FileUploadState.t :=
  FileUploadState.mk (FileUploadState.file fileState) error
    (Some "Failed to analyze") (FileUploadState.contract fileState).

Definition file_ref (fileState : FileUploadState.t) : nat :=
  File.ref (FileUploadState.file fileState).
Abbreviation is_pending fileState := (FileUploadState.status fileState = pending).

(** How the dispatch of one file can end. *)
Module Dispatch.
Section outcomes.
Variable setItem_throws : LocalStorage → Payload → option JsError.
Variable user : User.t.
Variable base64Promise : File.t → completion string.
Variable analyzeContract : string → string → completion ContractAnalysis.t.
Variable generateId : File.t → string.
Variable Date_now : File.t → Z.

Local Abbreviation newContract := (newContract_of user generateId Date_now).

(** The conversion or the analysis call of the file fails. *)
Definition fails_before_store (fileState : FileUploadState.t) : Prop :=
  let file := FileUploadState.file fileState in
  (∃ e, base64Promise file = Throw e)
  ∨ (∃ base64Data e, base64Promise file = Return base64Data
                     ∧ analyzeContract base64Data (File.type file) = Throw e).

(** The write of the document fails, on the storage the dispatch meets. *)
Definition fails_at_store (fileState : FileUploadState.t) (ls : LocalStorage)
  : Prop :=
  let file := FileUploadState.file fileState in
  ∃ base64Data analysis e ls',
    base64Promise file = Return base64Data
    ∧ analyzeContract base64Data (File.type file) = Return analysis
    ∧ saveContract setItem_throws (newContract file base64Data analysis) ls
      = (Throw e, ls').

(** Every step succeeds, and the document is [doc]. *)
Definition succeeds_with (fileState : FileUploadState.t) (ls : LocalStorage)
    (doc : Contract.t) : Prop :=
  let file := FileUploadState.file fileState in
  ∃ base64Data analysis ls',
    base64Promise file = Return base64Data
    ∧ analyzeContract base64Data (File.type file) = Return analysis
    ∧ doc = newContract file base64Data analysis
    ∧ saveContract setItem_throws doc ls = (Return doc, ls').
End outcomes.
End Dispatch.

(** The batch with its dispatched items replaced, in order, by the
    results. *)
Fixpoint replace_pending (batch results : list FileUploadState.t)
  : list FileUploadState.t :=
  match batch with
  | [] => []
  | f :: batch' =>
      if bool_decide (is_pending f) then
        match results with
        | res :: results' => res :: replace_pending batch' results'
        | [] => mark_processing f :: replace_pending batch' []
        end
      else f :: replace_pending batch' results
  end.

(** What it means for a string to match a pattern: the string splits into
    one code unit per [One] and one non-empty run per [Many]. *)
Inductive Matches : list Auth.atom → Auth.JsString → Prop :=
| Matches_nil : Matches [] []
| Matches_One p rest c s :
    p c = true → Matches rest s → Matches (Auth.One p :: rest) (c :: s)
| Matches_Many p rest run s :
    run ≠ [] → Forall (λ c, p c = true) run → Matches rest s →
    Matches (Auth.Many p :: rest) (run ++ s).

(** The code units of a string of ASCII characters. *)
Fixpoint units (s : string) : Auth.JsString :=
  match s with
  | EmptyString => []
  | String c s' => Ascii.N_of_ascii c :: units s'
  end.

(** * Sample data *)

Definition contract_2023 : Contract.t :=
  Contract.mk "c1" "alice" "lease.pdf" 1700000000000 "analyzed" None None
    "application/pdf".
Definition contract_2024 : Contract.t :=
  Contract.mk "c2" "alice" "nda.pdf" 1710000000000 "analyzed" None
    (Some "JVBERi0=") "application/pdf".
Definition contract_bob : Contract.t :=
  Contract.mk "c3" "bob" "offer.png" 1705000000000 "analyzed" None None
    "image/png".

Definition three_contracts : LocalStorage :=
  mkStorage (Some (Json [contract_2023; contract_bob; contract_2024])) None [].

Definition corrupted_storage : LocalStorage :=
  mkStorage (Some Malformed) (Some Malformed) [].

(** Both keys hold the text [null]. *)
Definition null_storage : LocalStorage :=
  mkStorage (Some (JsonOther JNull)) (Some (JsonOther JNull)) [].

(** A storage with room for documents without their bytes only. *)
Definition QuotaExceededError : JsError := mkError "QuotaExceededError" (Some 22).

Definition no_room_for_fileData (ls : LocalStorage) (p : Payload) : option JsError :=
  match p with
  | PContracts l =>
      if bool_decide (Exists (λ c, is_Some (Contract.fileData c)) l)
      then Some QuotaExceededError else None
  | PRecent _ => None
  end.

Definition accept_all (ls : LocalStorage) (p : Payload) : option JsError := None.

Definition entry (id : string) : RecentAnalysis.t :=
  RecentAnalysis.mk id (id +:+ ".pdf") "2024-03-09T16:00:00.000Z" "file"
    (id +:+ ".pdf") "text" 55 Medium ["summary"] [].

Definition twelve_entries : list RecentAnalysis.t :=
  entry <$> ["a"; "b"; "c"; "d"; "e"; "f"; "g"; "h"; "i"; "j"; "k"; "l"].

Definition a_txt : File.t := File.mk 1 "a.txt" "text/plain" 120.
Definition b_doc : File.t := File.mk 2 "b.doc" "application/msword" 4096.
Definition c_pdf : File.t := File.mk 3 "c.pdf" "application/pdf" 52000.
Definition d_png : File.t := File.mk 4 "d.png" "image/png" 8000.

Definition no_files : ComponentState := mkState [] None.

Definition done_item : FileUploadState.t :=
  FileUploadState.mk c_pdf success None (Some contract_2024).
Definition failed_item : FileUploadState.t :=
  FileUploadState.mk d_png error (Some "Failed to analyze") None.

Definition alice : User.t := User.mk "alice".
Definition reader (file : File.t) : completion string := Return "JVBERi0=".
Definition analysis_ok : ContractAnalysis.t :=
  ContractAnalysis.mk "A lease." Medium (Some 55) [] (Some "LEASE AGREEMENT").
Definition service_down : JsError := mkError "Error" None.
(** An analysis client that fails on PNG images. *)
Definition client (base64Data mimeType : string) : completion ContractAnalysis.t :=
  if bool_decide (mimeType = "image/png") then Throw service_down
  else Return analysis_ok.
Definition id_of (file : File.t) : string := "id-" +:+ File.name file.
Definition clock (file : File.t) : Z := 1710000000000.
Definition iso (ms : Z) : string := "2024-03-09T16:00:00.000Z".

Definition storage_full (ls : LocalStorage) (p : Payload) : option JsError :=
  Some QuotaExceededError.
Definition cache_full (ls : LocalStorage) (p : Payload) : option JsError :=
  match p with
  | PContracts _ => None
  | PRecent _ => Some QuotaExceededError
  end.
(** A storage with room for a cache of one entry. *)
Definition room_for_one_entry (ls : LocalStorage) (p : Payload) : option JsError :=
  match p with
  | PContracts _ => None
  | PRecent l =>
      if bool_decide (length l ≤ 1)%nat then None else Some QuotaExceededError
  end.

Definition two_pending : ComponentState :=
  mkState [pending_item c_pdf; pending_item d_png] None.
Definition one_pending : ComponentState := mkState [pending_item c_pdf] None.

Definition c_pdf_contract : Contract.t :=
  Contract.mk "id-c.pdf" "alice" "c.pdf" 1710000000000 "analyzed"
    (Some analysis_ok) (Some "JVBERi0=") "application/pdf".
Definition c_pdf_done : FileUploadState.t :=
  FileUploadState.mk c_pdf success None (Some c_pdf_contract).

(** An analysis service that answers every request with the same text. *)
Definition service_text (mimeType data : string) : completion (option string) :=
  Return (Some "{...}").
Definition parse_ok (text : string) : completion ContractAnalysis.t :=
  Return analysis_ok.
Definition no_answer (clauseText question : string) : completion (option string) :=
  Return (Some EmptyString).
Definition chat_down (contents : list ChatMessage.t) (context : string)
  : completion (option string) := Throw service_down.
(** A chat service that answers with the text of the last message of the
    request. *)
Definition echo_chat (contents : list ChatMessage.t) (context : string)
  : completion (option string) := Return (ChatMessage.text <$> last contents).

Definition one_png : ComponentState := mkState [pending_item d_png] None.

Definition e_pdf : File.t := File.mk 5 "e.pdf" "application/pdf" 9000000.
Definition f_webp : File.t := File.mk 6 "f.webp" "image/webp" 30000.



(** User objects with an optional name, and their spread. *)
Module Account.
Record t := mk { id : string; email : string; name : option string }.
Definition spread (a b : t) : t :=
  mk (id b) (email b) (match name b with Some n => Some n | None => name a end).
End Account.

Definition ann : Account.t := Account.mk "ann@x.org" "ann@x.org" (Some "Ann").
Definition ann_again : Account.t := Account.mk "ann@x.org" "ann@x.org" None.
Definition bob : Account.t := Account.mk "bob@x.org" "bob@x.org" (Some "Bob").

Definition accept_accounts (ls : Accounts.Storage (U:=Account.t))
    (p : Accounts.Payload (U:=Account.t)) : option JsError := None.
Definition two_accounts : Accounts.Storage (U:=Account.t) :=
  Accounts.mkStorage (Some (Json [ann; bob])) None [].
Definition corrupted_accounts : Accounts.Storage (U:=Account.t) :=
  Accounts.mkStorage (Some Malformed) (Some Accounts.MalformedObject) [].

Definition sample_clause : ClauseProp.t :=
  ClauseProp.mk
    (Clause.mk "clause-1" "The tenant waives all claims." "You give up claims."
       High ["waives"] "Waiver of rights")
    None.

(** * Properties *)

(** ** Sorting by a numeric key, largest first *)

Section Array_sort_facts.
Context {A : Type} (key : A → Z).

(** The comparator [(a, b) => key(b) - key(a)]. *)
Local Abbreviation cmp := (λ a b : A, key b - key a).
Local Abbreviation desc := (λ a b : A, key b ≤ key a).

Lemma sort_insert_Permutation x l : sort_insert cmp x l ≡ₚ x :: l.
Proof.
  induction l as [|y ys IH]; simpl; [done|].
  destruct (cmp x y <=? 0); [done|].
  rewrite IH. apply Permutation_swap.
Qed.

Lemma Array_sort_Permutation l : Array_sort cmp l ≡ₚ l.
Proof.
  induction l as [|x l IH]; simpl; [done|].
  rewrite sort_insert_Permutation. by f_equiv.
Qed.

Lemma sort_insert_sorted x l :
  StronglySorted desc l → StronglySorted desc (sort_insert cmp x l).
Proof.
  induction 1 as [|y ys Hs IH Hall]; simpl.
  - repeat constructor.
  - destruct (Z.leb_spec (cmp x y) 0) as [Hle|Hgt]; simpl in *.
    + constructor; [by constructor|].
      constructor; [lia|].
      eapply Forall_impl; [exact Hall|]. simpl. intros; lia.
    + constructor; [done|].
      rewrite sort_insert_Permutation. constructor; [lia|done].
Qed.

Lemma Array_sort_sorted l : StronglySorted desc (Array_sort cmp l).
Proof.
  induction l as [|x l IH]; simpl; [constructor|].
  by apply sort_insert_sorted.
Qed.

(** Stability: elements with equal keys keep their relative order. *)
Lemma sort_insert_stable k x l :
  filter (λ a, key a = k) (sort_insert cmp x l)
  = filter (λ a, key a = k) (x :: l).
Proof.
  induction l as [|y ys IH]; simpl; [done|].
  destruct (Z.leb_spec (cmp x y) 0) as [Hle|Hgt]; [done|].
  simpl in *.
  rewrite (filter_cons _ y), IH, !filter_cons.
  repeat case_decide; try done; lia.
Qed.

Lemma Array_sort_stable k l :
  filter (λ a, key a = k) (Array_sort cmp l) = filter (λ a, key a = k) l.
Proof.
  induction l as [|x l IH]; simpl; [done|].
  rewrite sort_insert_stable, !filter_cons, IH. done.
Qed.
End Array_sort_facts.

(** ** Filtering *)

Section filter_facts.
Context {A : Type} (P : A → Prop) `{!∀ x, Decision (P x)}.

Lemma filter_none (l : list A) : Forall (λ x, ¬ P x) l → filter P l = [].
Proof.
  induction 1 as [|x l Hx _ IH]; [done|].
  by rewrite filter_cons_False.
Qed.

Lemma filter_all (l : list A) : Forall P l → filter P l = l.
Proof.
  induction 1 as [|x l Hx _ IH]; [done|].
  rewrite filter_cons_True by done. by rewrite IH.
Qed.
End filter_facts.

(** ** Reading the store *)

(** Both reads of the documents go through the same parse; they differ in
    the array method they call on its result. *)
Lemma getContracts_body_stored (userId : string) (ls : LocalStorage) :
  getContracts_body userId ls
  = match stored_contracts ls with
    | Return allContracts =>
        Return (Array_sort (λ a b, Contract.uploadDate b - Contract.uploadDate a)
                  (filter (λ c, Contract.userId c = userId) allContracts))
    | Throw e => Throw e
    end.
Proof.
  unfold getContracts_body, stored_contracts.
  by destruct (JSON_parse (or_empty_array (CONTRACTS ls))) as [[?|?]|?].
Qed.

Lemma getContractById_body_stored (id : string) (ls : LocalStorage) :
  getContractById_body id ls
  = match stored_contracts ls with
    | Return allContracts =>
        Return (snd <$> list_find (λ c, Contract.id c = id) allContracts)
    | Throw e => Throw e
    end.
Proof.
  unfold getContractById_body, stored_contracts.
  by destruct (JSON_parse (or_empty_array (CONTRACTS ls))) as [[?|?]|?].
Qed.

(** The documents can be read exactly when the text under the key is
    absent, empty or the text of an array. *)
Lemma stored_contracts_cases (ls : LocalStorage) :
  (∃ allContracts, stored_contracts ls = Return allContracts
     ∧ JSON_parse (or_empty_array (CONTRACTS ls)) = Return (Array allContracts))
  ∨ (stored_contracts ls = Throw SyntaxError
     ∧ CONTRACTS ls = Some Malformed)
  ∨ (stored_contracts ls = Throw TypeError
     ∧ ∃ v, CONTRACTS ls = Some (JsonOther v)).
Proof.
  unfold stored_contracts.
  destruct (CONTRACTS ls) as [[| |l|v]|]; simpl; eauto 6.
Qed.

(** C8. Reading documents by user returns exactly the stored documents
    owned by the requested user (same elements, same multiplicities),
    ordered by upload timestamp, most recent first; documents with equal
    timestamps keep their stored order. *)
Theorem getContracts_by_user_sorted
    (ls : LocalStorage) (userId : string) (allContracts : list Contract.t)
    (Hstored : stored_contracts ls = Return allContracts) :
  getContracts userId ls
    ≡ₚ filter (λ c, Contract.userId c = userId) allContracts
  ∧ (∀ c, c ∈ getContracts userId ls
          ↔ c ∈ allContracts ∧ Contract.userId c = userId)
  ∧ StronglySorted (λ a b, Contract.uploadDate b ≤ Contract.uploadDate a)
      (getContracts userId ls)
  ∧ (∀ date, filter (λ c, Contract.uploadDate c = date) (getContracts userId ls)
             = filter (λ c, Contract.uploadDate c = date)
                 (filter (λ c, Contract.userId c = userId) allContracts)).
Proof.
  unfold getContracts. rewrite getContracts_body_stored, Hstored. simpl.
  split_and!.
  - apply (Array_sort_Permutation Contract.uploadDate).
  - intros c. rewrite (Array_sort_Permutation Contract.uploadDate).
    rewrite list_elem_of_filter. tauto.
  - apply (Array_sort_sorted Contract.uploadDate).
  - intros date. apply (Array_sort_stable Contract.uploadDate).
Qed.

Lemma getContracts_by_user_sorted_witness :
  getContracts "alice" three_contracts = [contract_2024; contract_2023]
  ∧ getContracts "alice" three_contracts
      ≡ₚ filter (λ c, Contract.userId c = "alice")
           [contract_2023; contract_bob; contract_2024].
Proof.
  split; [reflexivity|].
  apply (getContracts_by_user_sorted three_contracts "alice"
           [contract_2023; contract_bob; contract_2024]).
  reflexivity.
Defined.




(** ** Writing a document *)

Section saveContract_facts.
Variable setItem_throws : LocalStorage → Payload → option JsError.

(** The three ways [saveToStorage] can end. *)
Lemma saveToStorage_cases (c : Contract.t) (ls : LocalStorage) :
  (∃ e, stored_contracts ls = Throw e
        ∧ (e = SyntaxError ∨ e = TypeError)
        ∧ saveToStorage setItem_throws c ls = (Throw e, ls))
  ∨ (∃ allContracts e,
        stored_contracts ls = Return allContracts
        ∧ setItem_throws (held ls) (PContracts (upsert c allContracts)) = Some e
        ∧ saveToStorage setItem_throws c ls
          = (Throw e, mkStorage (CONTRACTS ls) (RECENT_ANALYSES ls)
                        (setItem_calls ls ++ [PContracts (upsert c allContracts)])))
  ∨ (∃ allContracts,
        stored_contracts ls = Return allContracts
        ∧ setItem_throws (held ls) (PContracts (upsert c allContracts)) = None
        ∧ saveToStorage setItem_throws c ls
          = (Return (), mkStorage (Some (Json (upsert c allContracts)))
                          (RECENT_ANALYSES ls)
                          (setItem_calls ls ++ [PContracts (upsert c allContracts)]))).
Proof.
  unfold saveToStorage, stored_contracts, bind, getItem_CONTRACTS, lift,
    setItem_CONTRACTS.
  destruct (JSON_parse (or_empty_array (CONTRACTS ls))) as [[all|v]|e] eqn:Hparse;
    simpl.
  - destruct (setItem_throws (held ls) (PContracts (upsert c all))) as [e|] eqn:Hset.
    + right; left. by exists all, e.
    + right; right. by exists all.
  - left. exists TypeError. by split_and!; [|right|].
  - left. exists e. split_and!; [done| |done].
    left. by destruct (or_empty_array (CONTRACTS ls)); simplify_eq/=.
Qed.

(** After an upsert, the first element carrying the id is the one written. *)
Lemma list_find_upsert (c : Contract.t) (allContracts : list Contract.t) :
  snd <$> list_find (λ x, Contract.id x = Contract.id c) (upsert c allContracts)
  = Some c.
Proof.
  unfold upsert.
  destruct (list_find _ allContracts) as [[i x]|] eqn:Hfind.
  - apply list_find_Some in Hfind as (Hi & Hx & Hbefore).
    assert (list_find (λ x, Contract.id x = Contract.id c)
              (<[i:=c]> allContracts) = Some (i, c)) as ->; [|done].
    apply list_find_Some. split_and!; [|done|].
    + apply list_lookup_insert_eq. by eapply lookup_lt_Some.
    + intros j y Hj Hlt.
      rewrite list_lookup_insert_ne in Hj by lia. by eapply Hbefore.
  - apply list_find_None in Hfind.
    assert (list_find (λ x, Contract.id x = Contract.id c)
              (allContracts ++ [c]) = Some (length allContracts, c)) as ->;
      [|done].
    apply list_find_Some. split_and!; [|done|].
    + by rewrite lookup_app_r, Nat.sub_diag.
    + intros j y Hj Hlt. rewrite lookup_app_l in Hj by done.
      eapply Forall_forall in Hfind; [exact Hfind|].
      by eapply list_elem_of_lookup_2.
Qed.

(** A document write that does not meet a capacity error: the result of
    the first attempt is the result of [saveContract]. *)
Lemma saveContract_first_attempt (contract : Contract.t) (ls ls1 : LocalStorage) :
  (saveToStorage setItem_throws contract ls = (Return (), ls1) →
     saveContract setItem_throws contract ls = (Return contract, ls1))
  ∧ (∀ e, saveToStorage setItem_throws contract ls = (Throw e, ls1) →
       isQuotaExceeded e = false →
       saveContract setItem_throws contract ls = (Throw e, ls1)).
Proof.
  unfold saveContract, try_catchM, bind, ret, throw. split.
  - by intros ->.
  - by intros e -> ->.
Qed.
End saveContract_facts.

(** C1. When the write of a document fails with a capacity error,
    [saveContract] retries exactly once: the storage sees two [setItem]
    calls, the full array first and then the array holding the copy whose
    [fileData] is cleared and whose other fields are those of the document.
    If the retry is accepted the caller gets the original document, with its
    [fileData], while the store holds the light copy; if the retry fails,
    its error reaches the caller. *)
Theorem saveContract_quota_light_retry
    (setItem_throws : LocalStorage → Payload → option JsError)
    (contract : Contract.t) (ls ls1 : LocalStorage) (e : JsError)
    (Hfirst : saveToStorage setItem_throws contract ls = (Throw e, ls1))
    (Hquota : isQuotaExceeded e = true) :
  let lightContract := Contract.without_fileData contract in
  (Contract.fileData lightContract = None
   ∧ Contract.id lightContract = Contract.id contract
   ∧ Contract.userId lightContract = Contract.userId contract
   ∧ Contract.fileName lightContract = Contract.fileName contract
   ∧ Contract.uploadDate lightContract = Contract.uploadDate contract
   ∧ Contract.status lightContract = Contract.status contract
   ∧ Contract.analysis lightContract = Contract.analysis contract
   ∧ Contract.mimeType lightContract = Contract.mimeType contract)
  ∧ ∃ allContracts,
      stored_contracts ls = Return allContracts
      ∧ let full_write := PContracts (upsert contract allContracts) in
        let light_write := PContracts (upsert lightContract allContracts) in
        let result := saveContract setItem_throws contract ls in
        setItem_calls result.2 = setItem_calls ls ++ [full_write; light_write]
        ∧ match saveToStorage setItem_throws lightContract ls1 with
          | (Return _, ls2) =>
              result = (Return contract, ls2)
              ∧ CONTRACTS ls2 = Some (Json (upsert lightContract allContracts))
              ∧ getContractById (Contract.id contract) ls2 = Some lightContract
          | (Throw retryError, ls2) =>
              result = (Throw retryError, ls2)
              ∧ CONTRACTS ls2 = CONTRACTS ls
          end.
Proof.
  intros lightContract. split; [done|].
  destruct (saveToStorage_cases setItem_throws contract ls)
    as [(e0 & _ & [->| ->] & H)|[(all & e0 & Hall & Hset & H)|(all & _ & _ & H)]];
    rewrite H in Hfirst; simplify_eq.
  exists all. split; [done|]. simpl.
  set (ls1 := mkStorage _ _ _).
  assert (stored_contracts ls1 = Return all) as Hall1 by done.
  assert (saveContract setItem_throws contract ls
          = match saveToStorage setItem_throws lightContract ls1 with
            | (Return _, ls2) => (Return contract, ls2)
            | (Throw retryError, ls2) => (Throw retryError, ls2)
            end) as Hsave.
  { unfold saveContract, try_catchM, bind at 1, ret, throw.
    rewrite H, Hquota. unfold bind at 1.
    subst ls1 lightContract.
    by destruct (saveToStorage _ (Contract.without_fileData contract) _)
      as [[[]|?] ?]. }
  rewrite Hsave.
  destruct (saveToStorage_cases setItem_throws lightContract ls1)
    as [(e1 & Hbad & _)|[(all1 & e1 & Hall1' & _ & H1)|(all1 & Hall1' & _ & H1)]];
    rewrite ?Hall1 in *; simplify_eq; rewrite H1; simpl.
  - split; [by rewrite <- app_assoc|]. done.
  - split; [by rewrite <- app_assoc|]. split_and!; [done..|].
    unfold getContractById. rewrite getContractById_body_stored. simpl.
    apply (list_find_upsert lightContract).
Qed.

Lemma saveContract_quota_light_retry_witness :
  saveContract no_room_for_fileData contract_2024 empty_storage
  = (Return contract_2024,
     mkStorage (Some (Json [Contract.without_fileData contract_2024])) None
       [PContracts [contract_2024];
        PContracts [Contract.without_fileData contract_2024]]).
Proof.
  destruct (saveContract_quota_light_retry no_room_for_fileData contract_2024
              empty_storage
              (mkStorage None None [PContracts [contract_2024]])
              QuotaExceededError eq_refl eq_refl)
    as (_ & all & Hall & _ & Hres).
  injection Hall as <-. simpl in Hres.
  destruct Hres as (-> & _). reflexivity.
Defined.

(** ** The recent-analysis cache *)

Section recent_facts.
Variable setItem_throws : LocalStorage → Payload → option JsError.

Local Abbreviation other_than a :=
  (λ item, RecentAnalysis.id item ≠ RecentAnalysis.id a).

(** What one call does to a cache that reads as an array. *)
Lemma saveRecentAnalysis_step (a : RecentAnalysis.t) (ls : LocalStorage)
    (cache : list RecentAnalysis.t) :
  getRecentAnalyses ls = Array cache →
  let trimmed := take 10 (a :: filter (other_than a) cache) in
  let ls' := (saveRecentAnalysis setItem_throws a ls).2 in
  (saveRecentAnalysis setItem_throws a ls).1 = Return ()
  ∧ CONTRACTS ls' = CONTRACTS ls
  ∧ setItem_calls ls' = setItem_calls ls ++ [PRecent trimmed]
  ∧ match setItem_throws (held ls) (PRecent trimmed) with
    | None => RECENT_ANALYSES ls' = Some (Json trimmed)
    | Some _ => RECENT_ANALYSES ls' = RECENT_ANALYSES ls
    end.
Proof.
  intros Hcache.
  unfold saveRecentAnalysis, try_catchM, setItem_RECENT_ANALYSES, ret.
  rewrite Hcache. simpl.
  by destruct (setItem_throws (held ls) _).
Qed.

(** On a cache that reads as a value that is not an array, [recent.filter]
    throws inside the [try] block: nothing is written. *)
Lemma saveRecentAnalysis_not_array (a : RecentAnalysis.t) (ls : LocalStorage)
    (v : NonArray) :
  getRecentAnalyses ls = NotArray v →
  saveRecentAnalysis setItem_throws a ls = (Return (), ls).
Proof.
  intros Hcache. unfold saveRecentAnalysis, try_catchM, ret.
  by rewrite Hcache.
Qed.

(** In every case the call returns and leaves the documents alone. *)
Lemma saveRecentAnalysis_returns (a : RecentAnalysis.t) (ls : LocalStorage) :
  (saveRecentAnalysis setItem_throws a ls).1 = Return ()
  ∧ CONTRACTS (saveRecentAnalysis setItem_throws a ls).2 = CONTRACTS ls.
Proof.
  destruct (getRecentAnalyses ls) as [cache|v] eqn:Hcache.
  - by destruct (saveRecentAnalysis_step a ls cache Hcache) as (? & ? & _).
  - by rewrite (saveRecentAnalysis_not_array a ls v Hcache).
Qed.

Lemma getRecentAnalyses_step (a : RecentAnalysis.t) (ls : LocalStorage)
    (cache : list RecentAnalysis.t) :
  getRecentAnalyses ls = Array cache →
  let trimmed := take 10 (a :: filter (other_than a) cache) in
  let cache' := getRecentAnalyses (saveRecentAnalysis setItem_throws a ls).2 in
  match setItem_throws (held ls) (PRecent trimmed) with
  | None => cache' = Array trimmed
  | Some _ => cache' = Array cache
  end.
Proof.
  intros Hcache trimmed cache'. subst cache'.
  destruct (saveRecentAnalysis_step a ls cache Hcache) as (_ & _ & _ & H).
  fold trimmed in H. rewrite <- Hcache.
  unfold getRecentAnalyses, getRecentAnalyses_body.
  destruct (setItem_throws (held ls) (PRecent trimmed)); by rewrite H.
Qed.

Lemma NoDup_ids_filter (P : RecentAnalysis.t → Prop) `{!∀ x, Decision (P x)}
    (l : list RecentAnalysis.t) :
  NoDup (recent_ids l) → NoDup (recent_ids (filter P l)).
Proof.
  intros Hnd. eapply sublist_NoDup; [exact Hnd|].
  apply fmap_sublist, sublist_filter.
Qed.

Lemma id_not_in_filter (a : RecentAnalysis.t) (l : list RecentAnalysis.t) :
  RecentAnalysis.id a ∉ recent_ids (filter (other_than a) l).
Proof.
  intros (x & Hid & Hx)%list_elem_of_fmap.
  apply list_elem_of_filter in Hx as [Hne _]. by apply Hne.
Qed.

Lemma NoDup_ids_front (a : RecentAnalysis.t) (l : list RecentAnalysis.t) :
  NoDup (recent_ids l) → NoDup (recent_ids (a :: filter (other_than a) l)).
Proof.
  intros Hl. rewrite fmap_cons. constructor.
  - apply id_not_in_filter.
  - by apply NoDup_ids_filter.
Qed.

Lemma NoDup_ids_take n (l : list RecentAnalysis.t) :
  NoDup (recent_ids l) → NoDup (recent_ids (take n l)).
Proof.
  intros Hnd. eapply sublist_NoDup; [exact Hnd|].
  apply fmap_sublist, sublist_take.
Qed.

Lemma saveRecentAnalysis_cache_ok (a : RecentAnalysis.t) (ls : LocalStorage) :
  cache_ok ls → cache_ok (saveRecentAnalysis setItem_throws a ls).2.
Proof.
  intros [Hlen Hnd]. unfold cache_ok in *.
  destruct (getRecentAnalyses ls) as [cache|v] eqn:Hcache.
  - pose proof (getRecentAnalyses_step a ls cache Hcache) as H. cbv zeta in H.
    destruct (setItem_throws (held ls) _); rewrite H; [done|].
    unfold entries_of in *. split.
    + rewrite length_take. lia.
    + by apply NoDup_ids_take, NoDup_ids_front.
  - rewrite (saveRecentAnalysis_not_array a ls v Hcache). simpl.
    by rewrite Hcache.
Qed.

Lemma save_all_cache_ok (entries : list RecentAnalysis.t) (ls : LocalStorage) :
  cache_ok ls → cache_ok (save_all setItem_throws ls entries).
Proof.
  revert ls. induction entries as [|a entries IH]; intros ls Hok; [done|].
  simpl. by apply IH, saveRecentAnalysis_cache_ok.
Qed.

(** A cache that reads as an array keeps doing so. *)
Lemma saveRecentAnalysis_keeps_array (a : RecentAnalysis.t) (ls : LocalStorage)
    (cache : list RecentAnalysis.t) :
  getRecentAnalyses ls = Array cache →
  ∃ cache', getRecentAnalyses (saveRecentAnalysis setItem_throws a ls).2
            = Array cache'.
Proof.
  intros Hcache.
  pose proof (getRecentAnalyses_step a ls cache Hcache) as H. cbv zeta in H.
  destruct (setItem_throws (held ls) _); eauto.
Qed.

Lemma save_all_keeps_array (entries : list RecentAnalysis.t) (ls : LocalStorage)
    (cache : list RecentAnalysis.t) :
  getRecentAnalyses ls = Array cache →
  ∃ cache', getRecentAnalyses (save_all setItem_throws ls entries) = Array cache'.
Proof.
  revert ls cache. induction entries as [|a entries IH]; intros ls cache Hcache.
  - by exists cache.
  - destruct (saveRecentAnalysis_keeps_array a ls cache Hcache) as [cache' H].
    simpl. by eapply IH.
Qed.

(** Trimming before or after dropping one identifier gives the same
    front of the list. *)
Lemma take_filter_take (a : RecentAnalysis.t) (n : nat)
    (l : list RecentAnalysis.t) :
  NoDup (recent_ids l) →
  take n (filter (other_than a) (take (S n) l)) = take n (filter (other_than a) l).
Proof.
  revert n. induction l as [|x l IH]; intros n Hnd; [done|].
  rewrite fmap_cons in Hnd. apply NoDup_cons in Hnd as [Hx Hnd].
  rewrite firstn_cons, !filter_cons.
  destruct (decide (RecentAnalysis.id x ≠ RecentAnalysis.id a)) as [Hne|Heq].
  - destruct n as [|n]; [done|]. rewrite !firstn_cons. f_equal. by apply IH.
  - apply dec_stable in Heq.
    assert (Forall (other_than a) l) as Hall.
    { apply Forall_forall. intros y Hy Hid. apply Hx.
      rewrite Heq, <- Hid. by apply list_elem_of_fmap_2. }
    rewrite (filter_all _ l Hall).
    rewrite filter_all by (eapply Forall_take; done).
    rewrite take_take. f_equal. lia.
Qed.

Lemma latest_first_NoDup (history : list RecentAnalysis.t) :
  NoDup (recent_ids (latest_first history)).
Proof.
  induction history as [|a older IH]; simpl; [constructor|].
  by apply NoDup_ids_front.
Qed.

Lemma latest_first_NoDup_id (history : list RecentAnalysis.t) :
  NoDup (recent_ids history) → latest_first history = history.
Proof.
  induction history as [|a older IH]; [done|].
  rewrite fmap_cons. intros [Ha Hnd]%NoDup_cons. simpl.
  rewrite IH by done. f_equal. apply filter_all, Forall_forall.
  intros y Hy Hid. apply Ha. rewrite <- Hid. by apply list_elem_of_fmap_2.
Qed.

(** From here on the storage accepts every write of the cache. *)
Hypothesis accepted : ∀ ls l, setItem_throws (held ls) (PRecent l) = None.

Lemma save_all_latest_first (entries : list RecentAnalysis.t) (ls : LocalStorage) :
  getRecentAnalyses ls = Array [] →
  getRecentAnalyses (save_all setItem_throws ls entries)
  = Array (take 10 (latest_first (reverse entries))).
Proof.
  intros Hempty. induction entries as [|a entries IH] using rev_ind.
  - unfold save_all. simpl. by rewrite Hempty.
  - unfold save_all in *. rewrite foldl_snoc, reverse_snoc. simpl.
    pose proof (getRecentAnalyses_step a _ _ IH) as H.
    cbv zeta in H. rewrite accepted in H. rewrite H.
    change (take 10 (?x :: ?l)) with (x :: take 9 l).
    do 2 f_equal. apply (take_filter_take a 9), latest_first_NoDup.
Qed.
End recent_facts.

Lemma filter_other_length (a : RecentAnalysis.t) (l : list RecentAnalysis.t) :
  NoDup (recent_ids l) →
  RecentAnalysis.id a ∈ recent_ids l →
  S (length (filter (λ item, RecentAnalysis.id item ≠ RecentAnalysis.id a) l))
  = length l.
Proof.
  induction l as [|x l IH]; [by intros _ ?%elem_of_nil|].
  rewrite fmap_cons. intros [Hx Hnd]%NoDup_cons Hin.
  rewrite filter_cons. case_decide as Hne; simpl.
  - f_equal. apply IH; [done|].
    apply elem_of_cons in Hin as [Heq|Hin]; [by rewrite Heq in Hne|done].
  - f_equal. f_equal.
    apply filter_all, Forall_forall. intros y Hy Hid. apply Hx.
    rewrite Hne, <- Hid. by apply list_elem_of_fmap_2.
Qed.

(** C2. After any series of [saveRecentAnalysis] calls on an empty cache,
    the cache reads as an array of at most 10 entries with no identifier
    twice, whether or not the storage accepted each write.  When the
    storage accepts the writes, the cache is the first 10 entries of the
    history read most recent first with every identifier kept at its latest
    insertion; after more than 10 insertions with distinct identifiers it is
    exactly the last 10 inserted, most recent first; and saving an entry
    whose identifier is in the cache drops the old entry and puts the new
    one in front, the count unchanged.  A call whose write the storage
    refuses returns normally and leaves the cache as it was. *)
Theorem recent_cache_bounded_latest_first
    (setItem_throws : LocalStorage → Payload → option JsError)
    (ls0 : LocalStorage) (entries : list RecentAnalysis.t)
    (Hempty : getRecentAnalyses ls0 = Array []) :
  let ls := save_all setItem_throws ls0 entries in
  let cache := entries_of (getRecentAnalyses ls) in
  getRecentAnalyses ls = Array cache
  ∧ ((length cache ≤ 10)%nat ∧ NoDup (recent_ids cache))
  ∧ ((∀ ls l, setItem_throws (held ls) (PRecent l) = None) →
     cache = take 10 (latest_first (reverse entries))
     ∧ (NoDup (recent_ids entries) → (10 < length entries)%nat →
        cache = take 10 (reverse entries) ∧ length cache = 10%nat)
     ∧ (∀ a, RecentAnalysis.id a ∈ recent_ids cache →
        let cache' :=
          entries_of
            (getRecentAnalyses (saveRecentAnalysis setItem_throws a ls).2) in
        cache' = a :: filter (λ item, RecentAnalysis.id item ≠ RecentAnalysis.id a)
                        cache
        ∧ length cache' = length cache
        ∧ NoDup (recent_ids cache')))
  ∧ (∀ a e,
       setItem_throws (held ls)
         (PRecent (take 10 (a :: filter (λ item, RecentAnalysis.id item
                                                 ≠ RecentAnalysis.id a) cache)))
       = Some e →
       (saveRecentAnalysis setItem_throws a ls).1 = Return ()
       ∧ getRecentAnalyses (saveRecentAnalysis setItem_throws a ls).2
         = Array cache).
Proof.
  intros ls cache.
  destruct (save_all_keeps_array setItem_throws entries ls0 [] Hempty)
    as [cache0 Harray].
  fold ls in Harray. subst cache. rewrite Harray.
  change (entries_of (Array cache0)) with cache0.
  assert (cache_ok ls) as [Hlen Hnd].
  { apply save_all_cache_ok. unfold cache_ok. rewrite Hempty.
    split; [simpl; lia|constructor]. }
  rewrite Harray in Hlen, Hnd. simpl in Hlen, Hnd.
  split_and!; [done..| |].
  - intros accepted.
    assert (cache0 = take 10 (latest_first (reverse entries))) as Hcache.
    { pose proof (save_all_latest_first setItem_throws accepted entries ls0
                    Hempty) as H.
      fold ls in H. congruence. }
    split_and!; [done| |].
    + intros Hdistinct Hmany.
      rewrite latest_first_NoDup_id in Hcache.
      * split; [done|]. rewrite Hcache, length_take, length_reverse. lia.
      * by rewrite fmap_reverse, reverse_Permutation.
    + intros a Hin cache'.
      pose proof (getRecentAnalyses_step setItem_throws a ls cache0 Harray) as H.
      cbv zeta in H. rewrite accepted in H. subst cache'. rewrite H.
      change (entries_of (Array ?l)) with l.
      pose proof (filter_other_length a cache0 Hnd Hin) as Hcount.
      assert (take 10 (a :: filter (λ item, RecentAnalysis.id item
                                            ≠ RecentAnalysis.id a) cache0)
              = a :: filter (λ item, RecentAnalysis.id item ≠ RecentAnalysis.id a)
                       cache0) as ->.
      { apply take_ge.
        change (length (a :: ?l)) with (S (length l)). by rewrite Hcount. }
      split_and!; [done| |].
      { change (length (a :: ?l)) with (S (length l)). by rewrite Hcount. }
      by apply NoDup_ids_front.
  - intros a e Hrefused.
    destruct (saveRecentAnalysis_step setItem_throws a ls cache0 Harray)
      as (Hret & _).
    split; [done|].
    pose proof (getRecentAnalyses_step setItem_throws a ls cache0 Harray) as H.
    cbv zeta in H. by rewrite Hrefused in H.
Qed.

Lemma recent_cache_bounded_latest_first_witness :
  getRecentAnalyses (save_all accept_all empty_storage twelve_entries)
  = Array (entry <$> ["l"; "k"; "j"; "i"; "h"; "g"; "f"; "e"; "d"; "c"])
  ∧ entries_of
      (getRecentAnalyses
         (saveRecentAnalysis accept_all (entry "e")
            (save_all accept_all empty_storage twelve_entries)).2)
    = entry <$> ["e"; "l"; "k"; "j"; "i"; "h"; "g"; "f"; "d"; "c"].
Proof.
  destruct (recent_cache_bounded_latest_first accept_all empty_storage
              twelve_entries eq_refl) as (Harray & _ & H & _).
  destruct (H (λ _ _, eq_refl)) as (_ & Hlast & Hagain).
  split.
  - refine (eq_trans Harray (f_equal Array (proj1 (Hlast _ _)))).
    + apply (bool_decide_unpack _). by vm_compute.
    + simpl. lia.
  - refine (eq_trans (proj1 (Hagain (entry "e") _)) _).
    + apply (bool_decide_unpack _). by vm_compute.
    + by vm_compute.
Defined.

(** C2, as stated, fails when the storage refuses a write.  On a storage
    with room for one entry, saving [a] and then [b] leaves [a] alone in
    the cache: the write of [b; a] is refused, [saveRecentAnalysis]
    swallows the error, and the most recent entry is not in the cache at
    all. *)
Lemma refused_cache_write_loses_latest_entry :
  getRecentAnalyses empty_storage = Array []
  ∧ getRecentAnalyses
      (save_all room_for_one_entry empty_storage [entry "a"; entry "b"])
    = Array [entry "a"]
  ∧ take 10 (latest_first (reverse [entry "a"; entry "b"]))
    = [entry "b"; entry "a"]
  ∧ ¬ (∀ setItem_throws ls0 entries,
         getRecentAnalyses ls0 = Array [] →
         getRecentAnalyses (save_all setItem_throws ls0 entries)
         = Array (take 10 (latest_first (reverse entries)))).
Proof.
  split_and!; [done| by vm_compute | by vm_compute |].
  intros Hclaim.
  specialize (Hclaim room_for_one_entry empty_storage [entry "a"; entry "b"]
                eq_refl).
  vm_compute in Hclaim. discriminate Hclaim.
Qed.

(** ** The history of calls has no influence *)

Section held_facts.
Variable setItem_throws : LocalStorage → Payload → option JsError.













End held_facts.

(** ** Submitting files *)

(** The [forEach] loop: the accepted files are appended in order, and the
    error cell keeps the message of the last rejected file. *)
Lemma validate_loop (fileList : list File.t)
    (newFiles : list FileUploadState.t) (err : option string) :
  foldl validate_step (newFiles, err) fileList
  = (newFiles ++ (pending_item <$> filter allowed fileList),
     match last (filter (λ f, ¬ allowed f) fileList) with
     | Some f => Some (invalid_format_message f)
     | None => err
     end).
Proof.
  revert newFiles err. induction fileList as [|f fileList IH]; intros newFiles err.
  - simpl. by rewrite app_nil_r.
  - simpl. rewrite !filter_cons. unfold validate_step at 2. simpl.
    fold (allowed f). destruct (decide (allowed f)) as [Hok|Hbad].
    + rewrite bool_decide_eq_true_2 by done.
      rewrite decide_False by tauto.
      rewrite IH, fmap_cons, <- app_assoc. done.
    + rewrite bool_decide_eq_false_2 by done.
      rewrite decide_True by done.
      rewrite IH. f_equal.
      generalize (filter (λ f, ¬ allowed f) fileList). intros [|g l]; [done|].
      change (last (f :: g :: l)) with (last (g :: l)).
      destruct (last (g :: l)) eqn:Hlast; [done|].
      by apply last_None in Hlast.
Qed.

(** C6, as the code has it.  [validateAndAddFiles] accepts exactly the files
    whose media type is in the allow-list and appends them, in order, as
    pending items; a rejected file never keeps another file of the
    submission from being accepted.  The descriptive error of a rejected
    file is written to the single [globalError] cell: when the submission
    has no acceptable file, the cell ends with the message of the last
    rejected file. *)
Theorem Submit_accepts_allowed_types
    (fileList : list File.t) (st : ComponentState) :
  let st' := validateAndAddFiles fileList st in
  files st' = files st ++ (pending_item <$> filter allowed fileList)
  ∧ (∀ f, filter allowed fileList = [] →
          last (filter (λ f, ¬ allowed f) fileList) = Some f →
          globalError st' = Some (invalid_format_message f)).
Proof.
  unfold validateAndAddFiles. rewrite validate_loop. simpl.
  destruct (filter allowed fileList) as [|g accepted] eqn:Hacc; simpl.
  - split; [by rewrite app_nil_r|]. by intros f _ ->.
  - split; [done|]. by intros f ?.
Qed.

Lemma Submit_accepts_allowed_types_witness :
  files (validateAndAddFiles [a_txt; c_pdf; b_doc; d_png] no_files)
    = [pending_item c_pdf; pending_item d_png]
  ∧ globalError (validateAndAddFiles [a_txt; b_doc] no_files)
    = Some (invalid_format_message b_doc).
Proof.
  split.
  - exact (proj1 (Submit_accepts_allowed_types [a_txt; c_pdf; b_doc; d_png] no_files)).
  - apply (proj2 (Submit_accepts_allowed_types [a_txt; b_doc] no_files) b_doc);
      reflexivity.
Defined.

(** C6, as stated, asks that every rejected file has its error surfaced.
    Two rejected files in one submission: only the message of the second
    one is left in [globalError]. *)
Lemma Submit_error_not_surfaced_per_file :
  ¬ (∀ (fileList : list File.t) (st : ComponentState) (f : File.t),
       f ∈ fileList → ¬ allowed f →
       globalError (validateAndAddFiles fileList st)
       = Some (invalid_format_message f)).
Proof.
  intros H. specialize (H [a_txt; b_doc] no_files a_txt).
  assert (globalError (validateAndAddFiles [a_txt; b_doc] no_files)
          = Some (invalid_format_message b_doc)) as Hb by reflexivity.
  rewrite Hb in H.
  assert (Some (invalid_format_message b_doc) = Some (invalid_format_message a_txt))
    as Heq.
  { apply H; [by left|]. unfold allowed. by apply (bool_decide_unpack _). }
  vm_compute in Heq. discriminate Heq.
Qed.

(** ** Removing a file *)

Lemma filter_index_all {A} (keep : nat → bool) (k : nat) (l : list A) :
  (∀ i, (k ≤ i)%nat → keep i = true) → filter_index keep k l = l.
Proof.
  revert k. induction l as [|x l IH]; intros k Hkeep; [done|].
  simpl. rewrite Hkeep by lia. f_equal. apply IH. intros i ?. apply Hkeep. lia.
Qed.

Lemma filter_index_delete {A} (keep : nat → bool) (k j : nat) (l : list A) :
  (∀ i, keep i = negb (i =? k + j)%nat) → filter_index keep k l = delete j l.
Proof.
  revert k j. induction l as [|x l IH]; intros k j Hkeep; [done|].
  simpl. rewrite Hkeep. destruct j as [|j]; simpl.
  - rewrite Nat.add_0_r, Nat.eqb_refl. simpl.
    apply filter_index_all. intros i Hi. rewrite Hkeep.
    apply negb_true_iff, Nat.eqb_neq. lia.
  - replace (k =? k + S j)%nat with false by (symmetry; apply Nat.eqb_neq; lia).
    simpl. f_equal. apply IH. intros i. rewrite Hkeep. do 2 f_equal. lia.
Qed.

Lemma filter_delete_other {A} (P : A → Prop) `{!∀ x, Decision (P x)}
    (l : list A) (i : nat) (x : A) :
  l !! i = Some x → ¬ P x → filter P (delete i l) = filter P l.
Proof.
  revert i. induction l as [|y l IH]; intros i Hi Hx; [done|].
  destruct i as [|i]; simpl in *.
  - injection Hi as ->. by rewrite filter_cons_False.
  - rewrite !filter_cons. by rewrite (IH i Hi Hx).
Qed.

Lemma click_remove_cases (index : nat) (st : ComponentState) :
  (∃ f, files st !! index = Some f ∧ is_pending f
        ∧ files (click_remove index st) = delete index (files st))
  ∨ click_remove index st = st.
Proof.
  unfold click_remove, remove_button_rendered.
  destruct (files st !! index) as [f|] eqn:Hf; [|by right].
  case_bool_decide as Hp; [|by right].
  left. exists f. split_and!; [done..|].
  unfold handleRemoveFile. simpl. by apply filter_index_delete.
Qed.

Lemma clear_all_enabled_spec (st : ComponentState) :
  clear_all_enabled st = true
  ↔ Exists (λ f, is_pending f) (files st)
    ∧ Forall (λ f, FileUploadState.status f ≠ processing) (files st).
Proof.
  unfold clear_all_enabled, clear_all_rendered, hasProcessing.
  rewrite !andb_true_iff, negb_true_iff, !bool_decide_eq_true,
    bool_decide_eq_false.
  rewrite <- Forall_Exists_neg. split.
  - by intros [[_ ?] ?].
  - intros [Hsome Hnone]. split_and!; [|done..].
    destruct (files st); [by apply Exists_nil in Hsome|simpl; lia].
Qed.

(** C10, as the code has it.  The remove button of a row exists only while
    the item of the row is pending, and a click on it takes that item, and
    no other, out of the batch: the items that are processing, succeeded
    or failed stay as they are, in their order.  The Clear All button can
    be pressed exactly when some item is pending and none is processing;
    it empties the batch, whatever the status of the items.  So an item
    that is not pending leaves the batch only by Clear All, and an item
    that is processing cannot be taken out at all. *)
Theorem Remove_controls_by_status (st : ComponentState) :
  (∀ index fileState,
     files st !! index = Some fileState →
     (remove_button_rendered fileState = true
      ↔ FileUploadState.status fileState = pending)
     ∧ (is_pending fileState →
        files (click (ClickRemove index) st) = delete index (files st))
     ∧ (FileUploadState.status fileState ≠ pending →
        click (ClickRemove index) st = st))
  ∧ (∀ index,
       filter (λ f, ¬ is_pending f) (files (click (ClickRemove index) st))
       = filter (λ f, ¬ is_pending f) (files st))
  ∧ (clear_all_enabled st = true
     ↔ Exists (λ f, is_pending f) (files st)
       ∧ Forall (λ f, FileUploadState.status f ≠ processing) (files st))
  ∧ (clear_all_enabled st = true → files (click ClickClearAll st) = [])
  ∧ (clear_all_enabled st = false → click ClickClearAll st = st)
  ∧ (∀ c fileState,
       fileState ∈ files st →
       FileUploadState.status fileState ≠ pending →
       fileState ∉ files (click c st) →
       c = ClickClearAll
       ∧ clear_all_enabled st = true
       ∧ FileUploadState.status fileState ≠ processing).
Proof.
  assert (∀ index,
            filter (λ f, ¬ is_pending f) (files (click_remove index st))
            = filter (λ f, ¬ is_pending f) (files st)) as Hkept.
  { intros index.
    destruct (click_remove_cases index st) as [(f & Hf & Hp & ->)| ->]; [|done].
    apply (filter_delete_other _ _ _ f Hf). by intros Hnot. }
  split_and!.
  - intros index fileState Hitem. split_and!.
    + unfold remove_button_rendered. apply bool_decide_eq_true.
    + intros Hp. simpl.
      destruct (click_remove_cases index st) as [(f & _ & _ & H)|H]; [done|].
      exfalso. revert H. unfold click_remove, remove_button_rendered.
      rewrite Hitem, bool_decide_eq_true_2 by done.
      intros H. apply (f_equal (λ s, length (files s))) in H.
      unfold handleRemoveFile in H. simpl in H.
      rewrite (filter_index_delete _ 0 index) in H by done.
      rewrite length_delete in H by by eexists.
      apply lookup_lt_Some in Hitem. lia.
    + intros Hstatus. simpl. unfold click_remove, remove_button_rendered.
      rewrite Hitem. by rewrite bool_decide_eq_false_2.
  - exact Hkept.
  - apply clear_all_enabled_spec.
  - intros Hon. simpl. unfold click_clear_all. by rewrite Hon.
  - intros Hoff. simpl. unfold click_clear_all. by rewrite Hoff.
  - intros c fileState Hin Hstatus Hgone.
    destruct c as [index|].
    + exfalso. apply Hgone. simpl.
      assert (fileState ∈ filter (λ f, ¬ is_pending f) (files st)) as Hf
        by by apply list_elem_of_filter.
      rewrite <- (Hkept index) in Hf.
      by apply list_elem_of_filter in Hf as [_ ?].
    + split; [done|]. simpl in Hgone. unfold click_clear_all in Hgone.
      destruct (clear_all_enabled st) eqn:Hon; [|done].
      split; [done|].
      apply clear_all_enabled_spec in Hon as [_ Hnone].
      by eapply Forall_forall in Hnone.
Qed.

Lemma Remove_controls_by_status_witness :
  let st := mkState [failed_item; pending_item c_pdf] None in
  click (ClickRemove 0) st = st
  ∧ files (click (ClickRemove 1) st) = [failed_item]
  ∧ files (click ClickClearAll st) = []
  ∧ click ClickClearAll (mkState [done_item; failed_item] None)
    = mkState [done_item; failed_item] None.
Proof.
  intros st.
  destruct (Remove_controls_by_status st) as (Hrow & _ & _ & Hclear & _).
  destruct (Hrow 0%nat failed_item eq_refl) as (_ & _ & Hkeep).
  destruct (Hrow 1%nat (pending_item c_pdf) eq_refl) as (_ & Hremove & _).
  destruct (Remove_controls_by_status (mkState [done_item; failed_item] None))
    as (_ & _ & _ & _ & Hoff & _).
  split_and!.
  - apply Hkeep. discriminate.
  - exact (Hremove eq_refl).
  - exact (Hclear eq_refl).
  - exact (Hoff eq_refl).
Defined.

(** C10, as stated, fails on Clear All.  A PNG image whose analysis has
    failed stays in the batch as an error item; once a PDF is submitted
    beside it, Clear All can be pressed, and it takes the error item out of
    the batch with the pending one. *)
Lemma Clear_All_removes_failed_item :
  let st := mkState [failed_item; pending_item c_pdf] None in
  validateAndAddFiles [c_pdf]
    (state_after
       (handleAnalyzeAll accept_all alice reader client id_of clock iso
          (validateAndAddFiles [d_png] no_files) empty_storage))
  = st
  ∧ failed_item ∈ files st
  ∧ FileUploadState.status failed_item = error
  ∧ clear_all_enabled st = true
  ∧ files (click ClickClearAll st) = []
  ∧ ¬ (∀ (st : ComponentState) (c : Click) (fileState : FileUploadState.t),
         fileState ∈ files st →
         FileUploadState.status fileState ≠ pending →
         fileState ∈ files (click c st)).
Proof.
  intros st. split_and!; [done|by left|done..|].
  intros Hclaim.
  specialize (Hclaim st ClickClearAll failed_item).
  apply elem_of_nil with failed_item, Hclaim; [by left|discriminate].
Qed.

(** ** Processing one file *)

Section processFile_facts.
Variable setItem_throws : LocalStorage → Payload → option JsError.
Variable user : User.t.
Variable base64Promise : File.t → completion string.
Variable analyzeContract : string → string → completion ContractAnalysis.t.
Variable generateId : File.t → string.
Variable Date_now : File.t → Z.
Variable toISOString : Z → string.

Local Abbreviation newContract := (newContract_of user generateId Date_now).
Local Abbreviation recentAnalysis := (recentAnalysis_of toISOString).
Local Abbreviation process :=
  (processFile setItem_throws user base64Promise analyzeContract generateId
     Date_now toISOString).
Local Abbreviation process_all :=
  (Promise_all_processFile setItem_throws user base64Promise analyzeContract
     generateId Date_now toISOString).
Local Abbreviation analyze_all :=
  (handleAnalyzeAll setItem_throws user base64Promise analyzeContract
     generateId Date_now toISOString).
Local Abbreviation fails_before_store :=
  (Dispatch.fails_before_store base64Promise analyzeContract).
Local Abbreviation fails_at_store :=
  (Dispatch.fails_at_store setItem_throws user base64Promise analyzeContract
     generateId Date_now).
Local Abbreviation succeeds_with :=
  (Dispatch.succeeds_with setItem_throws user base64Promise analyzeContract
     generateId Date_now).

Lemma saveContract_returns_argument (c c' : Contract.t) (ls ls' : LocalStorage) :
  saveContract setItem_throws c ls = (Return c', ls') → c' = c.
Proof.
  unfold saveContract, try_catchM, bind, ret, throw.
  destruct (saveToStorage setItem_throws c ls) as [[[]|e] ls1]; [congruence|].
  destruct (isQuotaExceeded e); [|done].
  destruct (saveToStorage setItem_throws _ ls1) as [[[]|e'] ls2]; congruence.
Qed.

(** The four ways a dispatch can end. *)
Lemma processFile_cases (fileState : FileUploadState.t) (ls : LocalStorage) :
  (fails_before_store fileState
   ∧ process fileState ls = (error_item fileState, ls))
  ∨ (fails_at_store fileState ls
     ∧ (process fileState ls).1 = error_item fileState)
  ∨ (∃ doc, succeeds_with fileState ls doc
            ∧ (process fileState ls).1
              = FileUploadState.mk (FileUploadState.file fileState) success
                  (FileUploadState.error fileState) (Some doc)).
Proof.
  unfold Dispatch.fails_before_store, Dispatch.fails_at_store,
    Dispatch.succeeds_with, processFile,
    processFile_try, bind, lift, ret.
  destruct (base64Promise _) as [b|e] eqn:Hb; [|left; eauto].
  destruct (analyzeContract _ _) as [an|e] eqn:Han; [|left; eauto 10].
  destruct (saveContract _ _ _) as [[c|e] ls1] eqn:Hsave.
  - right; right. exists (newContract (FileUploadState.file fileState) b an).
    pose proof (saveContract_returns_argument _ _ _ _ Hsave) as ->.
    split; [by eauto 10|].
    pose proof (saveRecentAnalysis_returns setItem_throws
                  (recentAnalysis (newContract (FileUploadState.file fileState) b an) an)
                  ls1) as (Hret & _).
    by destruct (saveRecentAnalysis _ _ _) as [[[]|?] ?]; simplify_eq/=.
  - right; left. split; [|done]. by eauto 10.
Qed.

Lemma processFile_file (fileState : FileUploadState.t) (ls : LocalStorage) :
  FileUploadState.file (process fileState ls).1 = FileUploadState.file fileState.
Proof.
  destruct (processFile_cases fileState ls)
    as [(_ & ->)|[(_ & ->)|(doc & _ & ->)]]; done.
Qed.

(** *** The fan-out *)


(** One result per dispatched file, each the result of that file's own
    dispatch on the storage it met. *)
Lemma process_all_results (l : list FileUploadState.t) (ls : LocalStorage) :
  Forall2 (λ f res, ∃ ls_i, res = (process f ls_i).1) l (process_all l ls).1.
Proof.
  revert ls. induction l as [|f l IH]; intros ls; simpl; [constructor|].
  destruct (process f ls) as [res ls1] eqn:Hres.
  specialize (IH ls1). destruct (process_all l ls1) as [rs ls2]. simpl in *.
  constructor; [|done]. exists ls. by rewrite Hres.
Qed.

(** *** Merging the results back *)

Lemma merge_result_cons_ne (h res : FileUploadState.t)
    (next : list FileUploadState.t) :
  file_ref h ≠ file_ref res →
  merge_result (h :: next) res = h :: merge_result next res.
Proof.
  intros Hne. unfold merge_result. simpl.
  rewrite decide_False by done.
  by destruct (list_find (same_file res) next) as [[idx ?]|].
Qed.

Lemma merge_result_cons_eq (h res : FileUploadState.t)
    (next : list FileUploadState.t) :
  file_ref h = file_ref res → merge_result (h :: next) res = res :: next.
Proof.
  intros Heq. unfold merge_result. simpl. by rewrite decide_True.
Qed.

Lemma foldl_merge_cons_ne (h : FileUploadState.t)
    (next results : list FileUploadState.t) :
  Forall (λ res, file_ref h ≠ file_ref res) results →
  foldl merge_result (h :: next) results = h :: foldl merge_result next results.
Proof.
  intros Hall. revert next. induction Hall as [|res results Hne _ IH]; intros next.
  - done.
  - simpl. by rewrite merge_result_cons_ne, IH.
Qed.

Lemma foldl_merge_replace_pending (batch results : list FileUploadState.t) :
  NoDup (file_ref <$> batch) →
  Forall2 (λ f res, file_ref res = file_ref f) (filter (λ f, is_pending f) batch)
    results →
  foldl merge_result (mark_processing <$> batch) results
  = replace_pending batch results.
Proof.
  revert results. induction batch as [|f batch IH]; intros results Hnd Hres.
  - apply Forall2_nil_inv_l in Hres as ->. done.
  - rewrite fmap_cons in Hnd. apply NoDup_cons in Hnd as [Hf Hnd].
    assert (∀ rs, Forall2 (λ f res, file_ref res = file_ref f)
                    (filter (λ f, is_pending f) batch) rs →
                  ∀ h, file_ref h = file_ref f →
                  Forall (λ res, file_ref h ≠ file_ref res) rs) as Hother.
    { intros rs Hrs h Hh. apply Forall_forall. intros res Hin Heq.
      apply list_elem_of_lookup in Hin as [i Hi].
      destruct (Forall2_lookup_r _ _ _ _ _ Hrs Hi) as (g & Hg & Hgres).
      apply Hf. rewrite <- Hh, Heq, Hgres.
      apply list_elem_of_fmap_2. eapply list_elem_of_filter.
      by eapply list_elem_of_lookup_2. }
    rewrite filter_cons in Hres. rewrite fmap_cons. simpl.
    unfold mark_processing at 1.
    destruct (decide (is_pending f)) as [Hp|Hp].
    + rewrite bool_decide_eq_true_2 by done.
      apply Forall2_cons_inv_l in Hres as (res & rs & Href & Hrs & ->).
      simpl. rewrite merge_result_cons_eq by done.
      rewrite foldl_merge_cons_ne by (by apply Hother).
      f_equal. by apply IH.
    + rewrite bool_decide_eq_false_2 by done.
      rewrite foldl_merge_cons_ne by (by apply Hother).
      f_equal. by apply IH.
Qed.

Lemma replace_pending_Forall2 (Q : FileUploadState.t → FileUploadState.t → Prop)
    (batch results : list FileUploadState.t) :
  Forall2 Q (filter (λ f, is_pending f) batch) results →
  Forall2 (λ before after,
             if decide (is_pending before) then Q before after
             else after = before)
    batch (replace_pending batch results).
Proof.
  revert results. induction batch as [|f batch IH]; intros results Hres;
    [constructor|].
  rewrite filter_cons in Hres. simpl.
  destruct (decide (is_pending f)) as [Hp|Hp].
  - rewrite bool_decide_eq_true_2 by done.
    apply Forall2_cons_inv_l in Hres as (res & rs & Href & Hrs & ->).
    constructor; [by rewrite decide_True|by apply IH].
  - rewrite bool_decide_eq_false_2 by done.
    constructor; [by rewrite decide_False|by apply IH].
Qed.

(** The fields of the outcome, one by one. *)
Lemma handleAnalyzeAll_fields (st : ComponentState) (ls : LocalStorage) :
  let pendingFiles := filter (λ f, is_pending f) (files st) in
  let results := (process_all pendingFiles ls).1 in
  let out := analyze_all st ls in
  files (state_after out)
    = foldl merge_result (mark_processing <$> files st) results
  ∧ globalError (state_after out) = globalError st
  ∧ storage_after out = (process_all pendingFiles ls).2
  ∧ onUploadComplete out
    = (if bool_decide (length (files st) = 1%nat) then
         match results with
         | res0 :: _ =>
             if bool_decide (FileUploadState.status res0 = success)
             then FileUploadState.contract res0 else None
         | [] => None
         end
       else None)
  ∧ raised out
    = (if bool_decide (length (files st) = 1%nat) then
         match results with [] => Some TypeError | _ :: _ => None end
       else None).
Proof.
  unfold handleAnalyzeAll. simpl.
  destruct (process_all _ ls) as [results ls']. simpl.
  destruct (bool_decide (length (files st) = 1%nat)); [|done].
  destruct results as [|res0 ?]; [done|].
  by destruct (bool_decide (FileUploadState.status res0 = success)).
Qed.

Lemma handleAnalyzeAll_files (st : ComponentState) (ls : LocalStorage) :
  NoDup (file_ref <$> files st) →
  files (state_after (analyze_all st ls))
  = replace_pending (files st)
      (process_all (filter (λ f, is_pending f) (files st)) ls).1.
Proof.
  intros Hnd.
  destruct (handleAnalyzeAll_fields st ls) as (-> & _).
  apply foldl_merge_replace_pending; [done|].
  eapply Forall2_impl; [apply process_all_results|].
  intros f res [ls_i ->]. unfold file_ref. by rewrite processFile_file.
Qed.
(** Which way a dispatch ends is decided by its own steps. *)
Lemma processFile_failure (fileState : FileUploadState.t) (ls : LocalStorage) :
  fails_before_store fileState ∨ fails_at_store fileState ls →
  (process fileState ls).1 = error_item fileState.
Proof.
  intros Hfail.
  destruct (processFile_cases fileState ls)
    as [(_ & ->)|[(_ & ->)|(doc & Hok & _)]]; [done..|].
  exfalso. destruct Hok as (b & an & ls' & Hb & Han & -> & Hsave).
  destruct Hfail as [[(e & He)|(b' & e & Hb' & He)]
                    |(b' & an' & e & ls'' & Hb' & Han' & Hsave')];
    simplify_eq; congruence.
Qed.

Lemma processFile_fails_before_store (fileState : FileUploadState.t)
    (ls : LocalStorage) :
  fails_before_store fileState →
  process fileState ls = (error_item fileState, ls).
Proof.
  intros Hfail.
  destruct (processFile_cases fileState ls)
    as [(_ & ->)|[(Hstore & _)|(doc & Hok & _)]]; [done|exfalso..].
  - destruct Hstore as (b & an & e & ls' & Hb & Han & _).
    destruct Hfail as [(e' & He)|(b' & e' & Hb' & He)]; simplify_eq; congruence.
  - destruct Hok as (b & an & ls' & Hb & Han & _).
    destruct Hfail as [(e' & He)|(b' & e' & Hb' & He)]; simplify_eq; congruence.
Qed.

Lemma processFile_success (fileState : FileUploadState.t) (ls : LocalStorage)
    (doc : Contract.t) :
  succeeds_with fileState ls doc →
  (process fileState ls).1
  = FileUploadState.mk (FileUploadState.file fileState) success
      (FileUploadState.error fileState) (Some doc).
Proof.
  intros Hok.
  destruct (processFile_cases fileState ls)
    as [(Hfail & _)|[(Hstore & _)|(doc' & Hok' & ->)]].
  - exfalso. destruct Hok as (b & an & ls' & Hb & Han & _).
    destruct Hfail as [(e' & He)|(b' & e' & Hb' & He)]; simplify_eq; congruence.
  - exfalso. destruct Hok as (b & an & ls' & Hb & Han & -> & Hsave).
    destruct Hstore as (b' & an' & e & ls'' & Hb' & Han' & Hsave').
    simplify_eq; congruence.
  - destruct Hok as (b & an & ls' & Hb & Han & -> & _).
    destruct Hok' as (b' & an' & ls'' & Hb' & Han' & -> & _).
    simplify_eq; congruence.
Qed.

(** A dispatch ends in success with its document, or in the error item. *)
Lemma processFile_terminal (fileState : FileUploadState.t) (ls : LocalStorage) :
  let after := (process fileState ls).1 in
  (∃ doc, succeeds_with fileState ls doc
          ∧ FileUploadState.status after = success
          ∧ FileUploadState.contract after = Some doc)
  ∨ ((fails_before_store fileState ∨ fails_at_store fileState ls)
     ∧ after = error_item fileState).
Proof.
  destruct (processFile_cases fileState ls)
    as [(Hfail & ->)|[(Hstore & ->)|(doc & Hok & ->)]]; simpl; eauto 10.
Qed.



Lemma handleAnalyzeAll_nothing_pending (st : ComponentState) (ls : LocalStorage) :
  Forall (λ f, ¬ is_pending f) (files st) →
  let out := analyze_all st ls in
  state_after out = st
  ∧ storage_after out = ls
  ∧ onUploadComplete out = None
  ∧ raised out
    = if bool_decide (length (files st) = 1%nat) then Some TypeError else None.
Proof.
  intros Hnone.
  destruct (handleAnalyzeAll_fields st ls) as (Hfiles & Herr & Hls & Hnav & Hraised).
  rewrite (filter_none _ _ Hnone) in *. simpl in *.
  split_and!; [|done| |done].
  - destruct (state_after _) as [fs ge], st as [fs0 ge0]. simpl in *.
    subst. f_equal.
    clear -Hnone. induction Hnone as [|f l Hf _ IH]; [done|].
    rewrite fmap_cons. f_equal; [|done].
    unfold mark_processing. by rewrite bool_decide_eq_false_2.
  - rewrite Hnav. by destruct (bool_decide _).
Qed.

(** *** What a dispatch depends on *)






(** ** The batch *)


(** C4. [handleAnalyzeAll] calls [onUploadComplete], with the document of
    the item, exactly when the batch it was called on holds one item, that
    item was dispatched and its dispatch ended in success; on a batch of
    two or more items it never calls it.  In every state in which the
    Analyze button can be pressed, the call is made exactly when the batch
    holds one item and that item is left in success. *)
Theorem AnalyzeAll_navigates_iff_single_success
    (st : ComponentState) (ls : LocalStorage) :
  let out := analyze_all st ls in
  (∀ doc,
     onUploadComplete out = Some doc
     ↔ ∃ f after,
         files st = [f] ∧ is_pending f
         ∧ files (state_after out) = [after]
         ∧ after = (process f ls).1
         ∧ FileUploadState.status after = success
         ∧ FileUploadState.contract after = Some doc)
  ∧ ((2 ≤ length (files st))%nat → onUploadComplete out = None)
  ∧ (analyze_button_enabled st = true →
     ∀ doc,
       onUploadComplete out = Some doc
       ↔ length (files st) = 1%nat
         ∧ ∃ after,
             files (state_after out) = [after]
             ∧ FileUploadState.status after = success
             ∧ FileUploadState.contract after = Some doc).
Proof.
  intros out.
  destruct (handleAnalyzeAll_fields st ls) as (Hfiles & _ & _ & Hnav & _).
  fold out in Hfiles, Hnav.
  assert (∀ doc,
            onUploadComplete out = Some doc
            ↔ ∃ f after,
                files st = [f] ∧ is_pending f
                ∧ files (state_after out) = [after]
                ∧ after = (process f ls).1
                ∧ FileUploadState.status after = success
                ∧ FileUploadState.contract after = Some doc) as Hiff;
    [|split_and!; [exact Hiff| |]].
  - intros doc. rewrite Hnav, Hfiles. clear Hnav Hfiles.
    destruct (files st) as [|f [|g rest]] eqn:Hst; simpl.
    + split; [done|]. by intros (? & ? & ? & _).
    + rewrite filter_cons. destruct (decide (is_pending f)) as [Hp|Hp]; simpl.
      * destruct (process f ls) as [res ls1] eqn:Hres. simpl.
        assert (file_ref res = file_ref f) as Href.
        { unfold file_ref.
          by rewrite <- (processFile_file f ls), Hres. }
        assert (merge_result [mark_processing f] res = [res]) as ->.
        { apply merge_result_cons_eq. rewrite Href. unfold mark_processing.
          by destruct (bool_decide _). }
        case_bool_decide as Hs.
        -- split.
           ++ intros Hdoc. exists f, res. by rewrite Hres.
           ++ by intros (f' & after & [= <-] & _ & [= <-] & _ & _ & Hc).
        -- split; [done|].
           by intros (f' & after & [= <-] & _ & [= <-] & _ & Hs' & _).
      * split; [done|]. by intros (f' & after & [= <-] & Hp' & _).
    + split; [done|]. by intros (? & ? & ? & _).
  - intros Hmany. rewrite Hnav.
    rewrite bool_decide_eq_false_2 by lia. done.
  - intros Henabled doc. rewrite Hiff. split.
    + intros (f & after & Hst & _ & Hafter & _ & Hs & Hc).
      split; [by rewrite Hst|]. by exists after.
    + intros (Hone & after & Hafter & Hs & Hc).
      destruct (files st) as [|f [|g rest]] eqn:Hst; try done.
      exists f, after.
      destruct (decide (is_pending f)) as [Hp|Hp].
      * split_and!; try done.
        rewrite Hfiles in Hafter.
        rewrite filter_cons, decide_True in Hafter by done. simpl in Hafter.
        destruct (process f ls) as [res ls1] eqn:Hres. simpl in *.
        assert (file_ref (mark_processing f) = file_ref res) as Href.
        { unfold file_ref, mark_processing.
          rewrite bool_decide_eq_true_2 by done. simpl.
          by rewrite <- (processFile_file f ls), Hres. }
        rewrite (merge_result_cons_eq _ _ _ Href) in Hafter. congruence.
      * exfalso.
        rewrite Hfiles in Hafter.
        rewrite filter_cons, decide_False in Hafter by done. simpl in Hafter.
        unfold mark_processing in Hafter.
        rewrite bool_decide_eq_false_2 in Hafter by done.
        injection Hafter as <-.
        unfold analyze_button_enabled, every_success in Henabled.
        rewrite Hst in Henabled.
        rewrite (bool_decide_eq_true_2 (Forall _ [f])) in Henabled
          by (by repeat constructor).
        by rewrite orb_true_r, andb_false_r in Henabled.
Qed.

(** C9, as the code has it.  An error of the document write that
    [saveContract] does not recover from (any error that is not a capacity
    error, and the error of the light retry) reaches [processFile], which
    maps it to the error item with its reason.  The write of the
    recent-analysis cache does not propagate its errors:
    [saveRecentAnalysis] catches them and returns normally, the cache
    keeps its previous content, and the item still ends in success. *)
Theorem store_write_errors_reach_pipeline_for_documents
    (fileState : FileUploadState.t) (ls : LocalStorage) :
  (∀ contract e ls1,
     saveToStorage setItem_throws contract ls = (Throw e, ls1) →
     (isQuotaExceeded e = false →
      saveContract setItem_throws contract ls = (Throw e, ls1))
     ∧ (isQuotaExceeded e = true → ∀ retryError ls2,
        saveToStorage setItem_throws (Contract.without_fileData contract) ls1
        = (Throw retryError, ls2) →
        saveContract setItem_throws contract ls = (Throw retryError, ls2)))
  ∧ (fails_at_store fileState ls →
     (process fileState ls).1 = error_item fileState)
  ∧ (∀ analysis,
       let trimmed :=
         take 10 (analysis
                  :: filter (λ item, RecentAnalysis.id item
                                     ≠ RecentAnalysis.id analysis)
                       (entries_of (getRecentAnalyses ls))) in
       let result := saveRecentAnalysis setItem_throws analysis ls in
       result.1 = Return ()
       ∧ (∀ e, setItem_throws (held ls) (PRecent trimmed) = Some e →
               RECENT_ANALYSES result.2 = RECENT_ANALYSES ls))
  ∧ (∀ doc, succeeds_with fileState ls doc →
       FileUploadState.status (process fileState ls).1 = success
       ∧ FileUploadState.contract (process fileState ls).1 = Some doc).
Proof.
  split_and!.
  - intros contract e ls1 Hfirst. split.
    + intros Hq. by apply saveContract_first_attempt.
    + intros Hq retryError ls2 Hretry.
      unfold saveContract, try_catchM, bind at 1, ret, throw.
      rewrite Hfirst, Hq. unfold bind. by rewrite Hretry.
  - intros Hfail. apply processFile_failure. by right.
  - intros analysis trimmed result. subst trimmed result.
    destruct (getRecentAnalyses ls) as [cache|v] eqn:Hread.
    + destruct (saveRecentAnalysis_step setItem_throws analysis ls cache Hread)
        as (Hret & _ & _ & Hcache).
      split; [done|]. intros e He.
      change (entries_of (Array cache)) with cache in He.
      by rewrite He in Hcache.
    + by rewrite (saveRecentAnalysis_not_array setItem_throws analysis ls v Hread).
  - intros doc Hok. by rewrite (processFile_success fileState ls doc Hok).
Qed.

End processFile_facts.

(** ** Concrete runs *)


Lemma AnalyzeAll_navigates_iff_single_success_witness :
  onUploadComplete (handleAnalyzeAll accept_all alice reader client id_of clock iso
                      two_pending empty_storage) = None
  ∧ onUploadComplete (handleAnalyzeAll accept_all alice reader client id_of clock
                        iso one_pending empty_storage) = Some c_pdf_contract.
Proof.
  destruct (AnalyzeAll_navigates_iff_single_success accept_all alice reader client
              id_of clock iso two_pending empty_storage) as (_ & Hmany & _).
  destruct (AnalyzeAll_navigates_iff_single_success accept_all alice reader client
              id_of clock iso one_pending empty_storage) as (_ & _ & Hone).
  split.
  - apply Hmany. simpl. lia.
  - apply (Hone eq_refl). split; [reflexivity|].
    exists c_pdf_done. by split_and!.
Defined.

(** C5.  One item, already failed: the Analyze button is enabled (no item is
    processing, not every item succeeded).  [handleAnalyzeAll] dispatches
    nothing and changes no item, then evaluates [results[0].status] on the
    empty [results] and ends with a [TypeError]. *)
Theorem AnalyzeAll_on_single_failed_item_raises
    (setItem_throws : LocalStorage → Payload → option JsError)
    (user : User.t) (base64Promise : File.t → completion string)
    (analyzeContract : string → string → completion ContractAnalysis.t)
    (generateId : File.t → string) (Date_now : File.t → Z)
    (toISOString : Z → string) (ls : LocalStorage) :
  let st := mkState [failed_item] None in
  let out := handleAnalyzeAll setItem_throws user base64Promise analyzeContract
               generateId Date_now toISOString st ls in
  analyze_button_enabled st = true
  ∧ state_after out = st
  ∧ storage_after out = ls
  ∧ onUploadComplete out = None
  ∧ raised out = Some TypeError.
Proof.
  intros st out. split; [reflexivity|].
  apply (handleAnalyzeAll_nothing_pending setItem_throws user base64Promise
           analyzeContract generateId Date_now toISOString st ls).
  by repeat constructor.
Qed.

Lemma store_write_errors_reach_pipeline_for_documents_witness :
  (processFile storage_full alice reader client id_of clock iso
     (pending_item c_pdf) empty_storage).1
  = error_item (pending_item c_pdf)
  ∧ (saveRecentAnalysis cache_full (entry "a") empty_storage).1 = Return ()
  ∧ FileUploadState.status
      (processFile cache_full alice reader client id_of clock iso
         (pending_item c_pdf) empty_storage).1 = success.
Proof.
  destruct (store_write_errors_reach_pipeline_for_documents storage_full alice
              reader client id_of clock iso (pending_item c_pdf) empty_storage)
    as (Hsave & Hitem & _).
  destruct (store_write_errors_reach_pipeline_for_documents cache_full alice
              reader client id_of clock iso (pending_item c_pdf) empty_storage)
    as (_ & _ & Hcache & Hok).
  destruct (Hsave c_pdf_contract QuotaExceededError
              (mkStorage None None [PContracts [c_pdf_contract]]) eq_refl)
    as (_ & Hretry).
  specialize (Hretry eq_refl QuotaExceededError
                (mkStorage None None
                   [PContracts [c_pdf_contract];
                    PContracts [Contract.without_fileData c_pdf_contract]])
                eq_refl).
  split_and!.
  - apply Hitem. exists "JVBERi0=", analysis_ok, QuotaExceededError.
    eexists. split_and!; [reflexivity..|exact Hretry].
  - apply (Hcache (entry "a")).
  - apply (Hok c_pdf_contract).
    exists "JVBERi0=", analysis_ok. eexists. split_and!; reflexivity.
Defined.

(** C9, as stated, fails on the cache write: the storage refuses the write
    and [saveRecentAnalysis] returns normally. *)
Lemma recent_cache_write_error_swallowed :
  ¬ (∀ (setItem_throws : LocalStorage → Payload → option JsError)
       (analysis : RecentAnalysis.t) (ls : LocalStorage) (e : JsError),
       setItem_throws (held ls)
         (PRecent (take 10 (analysis
                            :: filter (λ item, RecentAnalysis.id item
                                               ≠ RecentAnalysis.id analysis)
                                 (entries_of (getRecentAnalyses ls))))) = Some e →
       (saveRecentAnalysis setItem_throws analysis ls).1 = Throw e).
Proof.
  intros H.
  specialize (H cache_full (entry "a") empty_storage QuotaExceededError eq_refl).
  discriminate H.
Qed.

(** * Further properties of the store *)

(** ** Documents *)

Section document_store_facts.
Variable setItem_throws : LocalStorage → Payload → option JsError.

(** An upsert keeps the list of identifiers, or extends it at the end. *)
Lemma upsert_ids (c : Contract.t) (allContracts : list Contract.t) :
  contract_ids (upsert c allContracts)
  = if decide (Contract.id c ∈ contract_ids allContracts)
    then contract_ids allContracts
    else contract_ids allContracts ++ [Contract.id c].
Proof.
  unfold upsert.
  destruct (list_find _ allContracts) as [[i x]|] eqn:Hfind.
  - apply list_find_Some in Hfind as (Hi & Hx & _).
    rewrite decide_True.
    + rewrite list_fmap_insert. apply list_insert_id.
      by rewrite list_lookup_fmap, Hi, <- Hx.
    + rewrite <- Hx. apply list_elem_of_fmap_2. by eapply list_elem_of_lookup_2.
  - apply list_find_None in Hfind.
    rewrite decide_False; [by rewrite fmap_app|].
    intros (x & Hid & Hx)%list_elem_of_fmap.
    eapply Forall_forall in Hfind; [|exact Hx]. by apply Hfind.
Qed.

(** Looking for another identifier is not affected by an upsert. *)
Lemma list_find_insert_other {A} (P : A → Prop) `{!∀ x, Decision (P x)}
    (l : list A) (i : nat) (x y : A) :
  l !! i = Some x → ¬ P x → ¬ P y →
  snd <$> list_find P (<[i:=y]> l) = snd <$> list_find P l.
Proof.
  revert i. induction l as [|z l IH]; intros i Hi Hx Hy; [done|].
  destruct i as [|i]; simpl in *.
  - injection Hi as ->. by rewrite !decide_False.
  - destruct (decide (P z)); [done|].
    specialize (IH i Hi Hx Hy).
    destruct (list_find P (<[i:=y]> l)) as [[??]|],
             (list_find P l) as [[??]|]; simpl in *; congruence.
Qed.

Lemma list_find_snoc_other {A} (P : A → Prop) `{!∀ x, Decision (P x)}
    (l : list A) (y : A) :
  ¬ P y → snd <$> list_find P (l ++ [y]) = snd <$> list_find P l.
Proof.
  intros Hy. induction l as [|z l IH]; simpl.
  - by rewrite decide_False.
  - destruct (decide (P z)); [done|].
    destruct (list_find P (l ++ [y])) as [[??]|],
             (list_find P l) as [[??]|]; simpl in *; congruence.
Qed.

Lemma find_upsert_other (c : Contract.t) (allContracts : list Contract.t)
    (id : string) :
  id ≠ Contract.id c →
  snd <$> list_find (λ x, Contract.id x = id) (upsert c allContracts)
  = snd <$> list_find (λ x, Contract.id x = id) allContracts.
Proof.
  intros Hne. unfold upsert.
  destruct (list_find _ allContracts) as [[i x]|] eqn:Hfind.
  - apply list_find_Some in Hfind as (Hi & Hx & _).
    eapply list_find_insert_other; [exact Hi|congruence..].
  - apply list_find_snoc_other. congruence.
Qed.

(** Every way [saveContract] can end: what it returns, what the store
    holds afterwards and which [setItem] calls were made. *)
Lemma saveContract_outcomes (c : Contract.t) (ls : LocalStorage) :
  let result := saveContract setItem_throws c ls in
  RECENT_ANALYSES result.2 = RECENT_ANALYSES ls
  ∧ ((∃ e, (e = SyntaxError ∨ e = TypeError)
            ∧ stored_contracts ls = Throw e ∧ result = (Throw e, ls))
     ∨ ∃ allContracts,
         stored_contracts ls = Return allContracts
         ∧ ((result.1 = Return c
             ∧ ∃ stored, (stored = c ∨ stored = Contract.without_fileData c)
                 ∧ CONTRACTS result.2 = Some (Json (upsert stored allContracts))
                 ∧ (length (setItem_calls result.2)
                    ≤ length (setItem_calls ls) + 2)%nat)
            ∨ (∃ e, result.1 = Throw e)
              ∧ CONTRACTS result.2 = CONTRACTS ls
              ∧ (length (setItem_calls ls) < length (setItem_calls result.2)
                 ≤ length (setItem_calls ls) + 2)%nat)).
Proof.
  intros result. subst result.
  destruct (saveToStorage_cases setItem_throws c ls)
    as [(e0 & Hbad & He0 & H)|[(all & e & Hall & Hset & H)|(all & Hall & Hset & H)]].
  - assert (saveContract setItem_throws c ls = (Throw e0, ls)) as ->.
    { apply saveContract_first_attempt; [done|]. by destruct He0 as [->| ->]. }
    split; [done|]. left. by exists e0.
  - destruct (isQuotaExceeded e) eqn:Hq.
    + set (ls1 := mkStorage _ _ _) in H.
      assert (saveContract setItem_throws c ls
              = match saveToStorage setItem_throws (Contract.without_fileData c) ls1
                with
                | (Return _, ls2) => (Return c, ls2)
                | (Throw retryError, ls2) => (Throw retryError, ls2)
                end) as ->.
      { unfold saveContract, try_catchM, bind at 1, ret, throw.
        rewrite H, Hq. unfold bind at 1.
        by destruct (saveToStorage _ (Contract.without_fileData c) _)
          as [[[]|?] ?]. }
      destruct (saveToStorage_cases setItem_throws (Contract.without_fileData c) ls1)
        as [(e1 & Hbad & _)|[(all1 & e1 & Hall1 & _ & ->)|(all1 & Hall1 & _ & ->)]].
      * unfold stored_contracts in *. simpl in Hbad. congruence.
      * simpl. split; [done|]. right. exists all. split; [done|]. right.
        split_and!; [by eexists|done|..]; rewrite !length_app; simpl; lia.
      * assert (all1 = all) as -> by (unfold stored_contracts in *; simpl in *; congruence).
        simpl. split; [done|]. right. exists all. split; [done|]. left.
        split; [done|]. exists (Contract.without_fileData c).
        split_and!; [by right|done|]. rewrite !length_app. simpl. lia.
    + assert (saveContract setItem_throws c ls = (Throw e, mkStorage (CONTRACTS ls)
                (RECENT_ANALYSES ls)
                (setItem_calls ls ++ [PContracts (upsert c all)]))) as ->.
      { by apply saveContract_first_attempt. }
      simpl. split; [done|]. right. exists all. split; [done|]. right.
      split_and!; [by eexists|done|..]; rewrite length_app; simpl; lia.
  - assert (saveContract setItem_throws c ls
            = (Return c, mkStorage (Some (Json (upsert c all))) (RECENT_ANALYSES ls)
                           (setItem_calls ls ++ [PContracts (upsert c all)]))) as ->.
    { by apply saveContract_first_attempt. }
    simpl. split; [done|]. right. exists all. split; [done|]. left.
    split; [done|]. exists c. split_and!; [by left|done|].
    rewrite length_app. simpl. lia.
Qed.
End document_store_facts.

Lemma saveContract_read_back
    (setItem_throws : LocalStorage → Payload → option JsError)
    (contract returned : Contract.t) (ls ls' : LocalStorage) :
  saveContract setItem_throws contract ls = (Return returned, ls') →
  returned = contract
  ∧ (∃ stored,
       getContractById (Contract.id contract) ls' = Some stored
       ∧ (stored = contract ∨ stored = Contract.without_fileData contract)
       ∧ stored ∈ getContracts (Contract.userId contract) ls')
  ∧ (∀ id, id ≠ Contract.id contract →
           getContractById id ls' = getContractById id ls).
Proof.
  intros Hsaved.
  destruct (saveContract_outcomes setItem_throws contract ls) as (_ & Hcases).
  rewrite Hsaved in Hcases. simpl in Hcases.
  destruct Hcases as [(e0 & _ & _ & [=])|(all & Hall & [Hok|((e & [=]) & _)])].
  destruct Hok as ([= ->] & stored & Hstored & Hcontracts & _).
  assert (Contract.id stored = Contract.id contract
          ∧ Contract.userId stored = Contract.userId contract) as [Hid Huser].
  { by destruct Hstored as [->| ->]. }
  assert (stored_contracts ls' = Return (upsert stored all)) as Hall'.
  { unfold stored_contracts. by rewrite Hcontracts. }
  pose proof (list_find_upsert stored all) as Hfind. rewrite Hid in Hfind.
  split_and!; [done| |].
  - exists stored. split_and!; [|done|].
    + unfold getContractById.
      by rewrite getContractById_body_stored, Hall'.
    + unfold getContracts. rewrite getContracts_body_stored, Hall'. simpl.
      rewrite (Array_sort_Permutation Contract.uploadDate).
      apply list_elem_of_filter. split; [done|].
      destruct (list_find _ (upsert stored all)) as [[i x]|] eqn:Hf;
        [|done].
      injection Hfind as ->.
      apply list_find_Some in Hf as (Hi & _). by eapply list_elem_of_lookup_2.
  - intros id Hne. unfold getContractById.
    rewrite !getContractById_body_stored, Hall, Hall'. simpl.
    apply find_upsert_other. congruence.
Qed.

(** X1. A document that [saveContract] has saved can be read back: the
    caller gets the document it passed, the lookup by its id finds the
    stored copy (the document itself, or its copy without [fileData] after a
    capacity retry), the copy is listed among its owner's documents, and
    the lookup of every other id answers as before the write. *)
Theorem saveContract_then_read
    (setItem_throws : LocalStorage → Payload → option JsError)
    (contract returned : Contract.t) (ls ls' : LocalStorage)
    (Hsaved : saveContract setItem_throws contract ls = (Return returned, ls')) :
  returned = contract
  ∧ (∃ stored,
       getContractById (Contract.id contract) ls' = Some stored
       ∧ (stored = contract ∨ stored = Contract.without_fileData contract)
       ∧ stored ∈ getContracts (Contract.userId contract) ls')
  ∧ (∀ id, id ≠ Contract.id contract →
           getContractById id ls' = getContractById id ls).
Proof. by apply (saveContract_read_back setItem_throws). Qed.

Lemma saveContract_then_read_witness :
  getContractById "c2" (saveContract no_room_for_fileData contract_2024
                          three_contracts).2
  = Some (Contract.without_fileData contract_2024)
  ∧ getContractById "c1" (saveContract no_room_for_fileData contract_2024
                            three_contracts).2
    = Some contract_2023.
Proof.
  destruct (saveContract_then_read no_room_for_fileData contract_2024
              contract_2024 three_contracts
              (saveContract no_room_for_fileData contract_2024 three_contracts).2
              eq_refl) as (_ & _ & Hother).
  split; [reflexivity|].
  rewrite (Hother "c1"); [reflexivity|discriminate].
Defined.

(** X2. [saveContract] never touches the recent-analysis cache and makes at
    most two [setItem] calls.  When it throws, the documents are exactly as
    they were, and so is every read of them.  On a document store that
    cannot be parsed it throws the parse error without any [setItem] call,
    and on one that parses to a value that is not an array it throws the
    [TypeError] of the array method in the same way, so the store is never
    repaired by a write. *)
Theorem saveContract_failure_keeps_store
    (setItem_throws : LocalStorage → Payload → option JsError)
    (contract : Contract.t) (ls : LocalStorage) :
  let result := saveContract setItem_throws contract ls in
  RECENT_ANALYSES result.2 = RECENT_ANALYSES ls
  ∧ (length (setItem_calls result.2) ≤ length (setItem_calls ls) + 2)%nat
  ∧ (∀ e, result.1 = Throw e →
       CONTRACTS result.2 = CONTRACTS ls
       ∧ (∀ userId, getContracts userId result.2 = getContracts userId ls)
       ∧ (∀ id, getContractById id result.2 = getContractById id ls))
  ∧ (CONTRACTS ls = Some Malformed → result = (Throw SyntaxError, ls))
  ∧ (∀ v, CONTRACTS ls = Some (JsonOther v) → result = (Throw TypeError, ls)).
Proof.
  intros result.
  destruct (saveContract_outcomes setItem_throws contract ls) as (Hrecent & Hcases).
  fold result in Hrecent, Hcases.
  split_and!; [done| | | |].
  - destruct Hcases as [(e0 & _ & _ & ->)
                       |(all & _ & [(_ & _ & _ & _ & Hn)|(_ & _ & Hn)])];
      simpl; lia.
  - intros e He.
    assert (CONTRACTS result.2 = CONTRACTS ls) as Hsame.
    { destruct Hcases as [(e0 & _ & _ & ->)|(all & _ & [(Hret & _)|(_ & Hc & _)])];
        [done|congruence|done]. }
    split; [done|].
    unfold getContracts, getContracts_body, getContractById, getContractById_body.
    by rewrite Hsame.
  - intros Hbad.
    destruct Hcases as [(e0 & _ & Hthrow & ->)|(all & Hall & _)].
    + unfold stored_contracts in Hthrow. rewrite Hbad in Hthrow.
      by injection Hthrow as <-.
    + unfold stored_contracts in Hall. by rewrite Hbad in Hall.
  - intros v Hbad.
    destruct Hcases as [(e0 & _ & Hthrow & ->)|(all & Hall & _)].
    + unfold stored_contracts in Hthrow. rewrite Hbad in Hthrow.
      by injection Hthrow as <-.
    + unfold stored_contracts in Hall. by rewrite Hbad in Hall.
Qed.

Lemma saveContract_failure_keeps_store_witness :
  saveContract accept_all contract_2024 corrupted_storage
  = (Throw SyntaxError, corrupted_storage)
  ∧ getContracts "alice"
      (saveContract storage_full contract_bob three_contracts).2
    = [contract_2024; contract_2023].
Proof.
  destruct (saveContract_failure_keeps_store accept_all contract_2024
              corrupted_storage) as (_ & _ & _ & Hbad & _).
  destruct (saveContract_failure_keeps_store storage_full contract_bob
              three_contracts) as (_ & _ & Hthrow & _).
  split; [exact (Hbad eq_refl)|].
  destruct (Hthrow QuotaExceededError eq_refl) as (_ & Hread & _).
  rewrite Hread. reflexivity.
Defined.

(** X3. A successful [saveContract] keeps the identifiers of the stored
    documents in place: when the id is already stored the list of ids is
    unchanged (the document is replaced where it was), otherwise the id is
    added at the end.  Distinct ids stay distinct. *)
Theorem saveContract_keeps_ids
    (setItem_throws : LocalStorage → Payload → option JsError)
    (contract returned : Contract.t) (ls ls' : LocalStorage)
    (allContracts : list Contract.t)
    (Hstored : stored_contracts ls = Return allContracts)
    (Hsaved : saveContract setItem_throws contract ls = (Return returned, ls')) :
  ∃ allContracts',
    stored_contracts ls' = Return allContracts'
    ∧ contract_ids allContracts'
      = (if decide (Contract.id contract ∈ contract_ids allContracts)
         then contract_ids allContracts
         else contract_ids allContracts ++ [Contract.id contract])
    ∧ (NoDup (contract_ids allContracts) → NoDup (contract_ids allContracts')).
Proof.
  destruct (saveContract_outcomes setItem_throws contract ls) as (_ & Hcases).
  rewrite Hsaved in Hcases. simpl in Hcases.
  destruct Hcases as [(e0 & _ & _ & [=])|(all & Hall & [Hok|((e & [=]) & _)])].
  destruct Hok as (_ & stored & Hwhich & Hcontracts & _).
  assert (all = allContracts) as -> by congruence.
  assert (Contract.id stored = Contract.id contract) as Hid.
  { by destruct Hwhich as [->| ->]. }
  exists (upsert stored allContracts).
  assert (contract_ids (upsert stored allContracts)
          = (if decide (Contract.id contract ∈ contract_ids allContracts)
             then contract_ids allContracts
             else contract_ids allContracts ++ [Contract.id contract])) as Hids.
  { by rewrite upsert_ids, Hid. }
  split_and!; [|done|].
  - unfold stored_contracts. by rewrite Hcontracts.
  - intros Hnd. rewrite Hids. case_decide as Hin; [done|].
    apply NoDup_app. split_and!; [done| |apply NoDup_singleton].
    intros x Hx ->%list_elem_of_singleton. by apply Hin.
Qed.

Lemma saveContract_keeps_ids_witness :
  ∃ allContracts',
    stored_contracts (saveContract accept_all contract_2024 three_contracts).2
    = Return allContracts'
    ∧ contract_ids allContracts' = ["c1"; "c3"; "c2"].
Proof.
  destruct (saveContract_keeps_ids accept_all contract_2024 contract_2024
              three_contracts
              (saveContract accept_all contract_2024 three_contracts).2
              [contract_2023; contract_bob; contract_2024] eq_refl eq_refl)
    as (all' & Hall' & Hids & _).
  exists all'. split; [exact Hall'|]. rewrite Hids. reflexivity.
Defined.

(** ** The recent-analysis cache *)

Section recent_cache_more.
Variable setItem_throws : LocalStorage → Payload → option JsError.

Lemma Forall_filter_self {A} (P : A → Prop) `{!∀ x, Decision (P x)} (l : list A) :
  Forall P (filter P l).
Proof. apply Forall_forall. by intros x [? _]%list_elem_of_filter. Qed.

(** X4. One call of [saveRecentAnalysis] returns normally and leaves the
    documents alone.  When the cache reads as an array (an absent, an empty
    and an unparsable text read as the empty array) and the storage accepts
    the write, the new entry is first, the entries behind it are entries of
    the old cache in their old order, none of them carries the new entry's
    id, and at most 10 entries are kept; a cache that could not be parsed is
    replaced by the single new entry.  When the text of the cache parses to
    a value that is not an array, [recent.filter] throws inside the [try]
    block: the call makes no [setItem] call and the storage is as it
    was. *)
Theorem saveRecentAnalysis_puts_entry_first
    (analysis : RecentAnalysis.t) (ls : LocalStorage) :
  let result := saveRecentAnalysis setItem_throws analysis ls in
  let ls' := result.2 in
  result.1 = Return ()
  ∧ CONTRACTS ls' = CONTRACTS ls
  ∧ (∀ cache,
       getRecentAnalyses ls = Array cache →
       setItem_throws (held ls)
         (PRecent (take 10 (analysis
                            :: filter (λ item, RecentAnalysis.id item
                                               ≠ RecentAnalysis.id analysis)
                                 cache))) = None →
       ∃ rest,
         getRecentAnalyses ls' = Array (analysis :: rest)
         ∧ sublist rest cache
         ∧ (RecentAnalysis.id analysis ∉ recent_ids rest)
         ∧ (length rest ≤ 9)%nat)
  ∧ (RECENT_ANALYSES ls = Some Malformed →
     setItem_throws (held ls) (PRecent [analysis]) = None →
     RECENT_ANALYSES ls' = Some (Json [analysis]))
  ∧ (∀ v, RECENT_ANALYSES ls = Some (JsonOther v) →
     ls' = ls ∧ getRecentAnalyses ls' = NotArray v).
Proof.
  intros result ls'. subst result ls'.
  destruct (saveRecentAnalysis_returns setItem_throws analysis ls)
    as (Hret & Hcontracts).
  split_and!; [done..| | |].
  - intros cache Hcache Haccepted.
    pose proof (getRecentAnalyses_step setItem_throws analysis ls cache Hcache)
      as Hread.
    cbv zeta in Hread. rewrite Haccepted in Hread.
    exists (take 9 (filter (λ item, RecentAnalysis.id item
                                     ≠ RecentAnalysis.id analysis) cache)).
    split_and!; [done| | |].
    + etrans; [apply sublist_take|apply sublist_filter].
    + intros (x & Hid & Hx)%list_elem_of_fmap.
      apply elem_of_take in Hx as (i & Hx & _).
      apply list_elem_of_lookup_2 in Hx.
      apply list_elem_of_filter in Hx as [Hne _]. by apply Hne.
    + rewrite length_take. lia.
  - intros Hbad Haccepted.
    assert (getRecentAnalyses ls = Array []) as Hcache.
    { unfold getRecentAnalyses, getRecentAnalyses_body. by rewrite Hbad. }
    destruct (saveRecentAnalysis_step setItem_throws analysis ls [] Hcache)
      as (_ & _ & _ & Hwrite).
    cbv zeta in Hwrite.
    change (take 10 (analysis :: filter _ [])) with [analysis] in Hwrite.
    by rewrite Haccepted in Hwrite.
  - intros v Hother.
    assert (getRecentAnalyses ls = NotArray v) as Hcache.
    { unfold getRecentAnalyses, getRecentAnalyses_body. by rewrite Hother. }
    by rewrite (saveRecentAnalysis_not_array setItem_throws analysis ls v Hcache).
Qed.

(** From here on the storage accepts every write of the cache. *)
Hypothesis accepted : ∀ ls l, setItem_throws (held ls) (PRecent l) = None.

(** X5. Saving two entries with the same id one after the other leaves the
    cache as saving the second one alone; in particular saving an entry
    twice is the same as saving it once. *)
Theorem saveRecentAnalysis_last_write_wins
    (first second : RecentAnalysis.t) (ls : LocalStorage)
    (Hsame : RecentAnalysis.id first = RecentAnalysis.id second) :
  getRecentAnalyses
    (saveRecentAnalysis setItem_throws second
       (saveRecentAnalysis setItem_throws first ls).2).2
  = getRecentAnalyses (saveRecentAnalysis setItem_throws second ls).2.
Proof.
  destruct (getRecentAnalyses ls) as [cache|v] eqn:Hcache.
  - pose proof (getRecentAnalyses_step setItem_throws first ls cache Hcache) as H1.
    pose proof (getRecentAnalyses_step setItem_throws second ls cache Hcache)
      as H2.
    cbv zeta in H1, H2. rewrite accepted in H1, H2.
    pose proof (getRecentAnalyses_step setItem_throws second
                  (saveRecentAnalysis setItem_throws first ls).2 _ H1) as H3.
    cbv zeta in H3. rewrite accepted in H3.
    rewrite H3, H2. rewrite <- Hsame. f_equal.
    set (F := filter (λ item, RecentAnalysis.id item ≠ RecentAnalysis.id first)
                cache).
    change (take 10 (first :: F)) with (first :: take 9 F).
    rewrite filter_cons_False by (intros Hne; by apply Hne).
    rewrite filter_all by (apply Forall_take, Forall_filter_self).
    change (take 10 (second :: ?l)) with (second :: take 9 l).
    by rewrite take_take.
  - by rewrite !(saveRecentAnalysis_not_array setItem_throws _ ls v Hcache).
Qed.

(** X6. [clearRecentAnalyses] empties the cache whatever it held, returns
    normally and leaves the documents alone; the saves that follow fill the
    cache as they fill a fresh one. *)
Theorem clearRecentAnalyses_starts_afresh
    (ls : LocalStorage) (entries : list RecentAnalysis.t) :
  let cleared := (clearRecentAnalyses ls).2 in
  (clearRecentAnalyses ls).1 = Return ()
  ∧ getRecentAnalyses cleared = Array []
  ∧ CONTRACTS cleared = CONTRACTS ls
  ∧ setItem_calls cleared = setItem_calls ls
  ∧ getRecentAnalyses (save_all setItem_throws cleared entries)
    = Array (take 10 (latest_first (reverse entries))).
Proof.
  intros cleared. split_and!; [done..|].
  by apply save_all_latest_first.
Qed.
End recent_cache_more.

Lemma saveRecentAnalysis_puts_entry_first_witness :
  RECENT_ANALYSES (saveRecentAnalysis accept_all (entry "z") corrupted_storage).2
  = Some (Json [entry "z"])
  ∧ (∃ rest,
       getRecentAnalyses
         (saveRecentAnalysis accept_all (entry "b")
            (save_all accept_all empty_storage [entry "a"; entry "b"; entry "c"])).2
       = Array (entry "b" :: rest)
       ∧ sublist rest [entry "c"; entry "b"; entry "a"])
  ∧ (saveRecentAnalysis accept_all (entry "z") null_storage).2 = null_storage.
Proof.
  destruct (saveRecentAnalysis_puts_entry_first accept_all (entry "z")
              corrupted_storage) as (_ & _ & _ & Hbad & _).
  destruct (saveRecentAnalysis_puts_entry_first accept_all (entry "b")
              (save_all accept_all empty_storage [entry "a"; entry "b"; entry "c"]))
    as (_ & _ & Harray & _).
  destruct (saveRecentAnalysis_puts_entry_first accept_all (entry "z")
              null_storage) as (_ & _ & _ & _ & Hother).
  split_and!.
  - exact (Hbad eq_refl eq_refl).
  - destruct (Harray [entry "c"; entry "b"; entry "a"] eq_refl eq_refl)
      as (rest & Hread & Hsub & _).
    by exists rest.
  - exact (proj1 (Hother JNull eq_refl)).
Defined.

Lemma saveRecentAnalysis_last_write_wins_witness :
  getRecentAnalyses
    (saveRecentAnalysis accept_all (entry "e")
       (saveRecentAnalysis accept_all (entry "e")
          (save_all accept_all empty_storage twelve_entries)).2).2
  = Array (entry <$> ["e"; "l"; "k"; "j"; "i"; "h"; "g"; "f"; "d"; "c"]).
Proof.
  rewrite (saveRecentAnalysis_last_write_wins accept_all (λ _ _, eq_refl)
             (entry "e") (entry "e")
             (save_all accept_all empty_storage twelve_entries) eq_refl).
  by vm_compute.
Defined.

Lemma clearRecentAnalyses_starts_afresh_witness :
  getRecentAnalyses
    (save_all accept_all
       (clearRecentAnalyses (save_all accept_all empty_storage twelve_entries)).2
       [entry "a"; entry "b"; entry "a"])
  = Array [entry "a"; entry "b"].
Proof.
  destruct (clearRecentAnalyses_starts_afresh accept_all (λ _ _, eq_refl)
              (save_all accept_all empty_storage twelve_entries)
              [entry "a"; entry "b"; entry "a"]) as (_ & _ & _ & _ & H).
  rewrite H. by vm_compute.
Defined.

(** * Further properties of the upload component *)

(** ** Submitting and removing files *)

(** X7. What a submission does to the error cell and to the batch: as soon
    as one file of the submission is accepted the error cell is emptied,
    whatever was rejected beside it and whatever error was shown before; a
    submission in which no file is accepted leaves the batch as it was; an
    empty submission changes nothing at all. *)
Theorem Submit_resets_error_when_a_file_is_accepted
    (fileList : list File.t) (st : ComponentState) :
  let st' := validateAndAddFiles fileList st in
  (Exists allowed fileList → globalError st' = None)
  ∧ (Forall (λ f, ¬ allowed f) fileList → files st' = files st)
  ∧ (fileList = [] → st' = st).
Proof.
  unfold validateAndAddFiles. rewrite validate_loop. simpl.
  split_and!.
  - intros (f & Hin & Hok)%Exists_exists.
    assert (f ∈ filter allowed fileList) as Hf by by apply list_elem_of_filter.
    destruct (filter allowed fileList) as [|g accepted]; [by apply elem_of_nil in Hf|].
    done.
  - intros Hnone. by rewrite (filter_none _ _ Hnone).
  - intros ->. simpl. by destruct st.
Qed.

Lemma Submit_resets_error_when_a_file_is_accepted_witness :
  globalError (validateAndAddFiles [a_txt; c_pdf]
                 (mkState [] (Some (invalid_format_message b_doc)))) = None
  ∧ files (validateAndAddFiles [a_txt; b_doc] two_pending) = files two_pending.
Proof.
  destruct (Submit_resets_error_when_a_file_is_accepted [a_txt; c_pdf]
              (mkState [] (Some (invalid_format_message b_doc)))) as (H1 & _).
  destruct (Submit_resets_error_when_a_file_is_accepted [a_txt; b_doc]
              two_pending) as (_ & H2 & _).
  split.
  - apply H1. apply Exists_cons_tl, Exists_cons_hd.
    unfold allowed. by apply (bool_decide_unpack _).
  - apply H2. repeat constructor; unfold allowed;
      by apply (bool_decide_unpack _).
Defined.

Lemma validateAndAddFiles_files (fileList : list File.t) (st : ComponentState) :
  files (validateAndAddFiles fileList st)
  = files st ++ (pending_item <$> filter allowed fileList).
Proof.
  unfold validateAndAddFiles. rewrite validate_loop. simpl.
  destruct (filter allowed fileList) as [|g accepted]; simpl; [|done].
  by rewrite app_nil_r.
Qed.

(** X8. Submitting fresh [File] objects keeps the objects of the batch
    pairwise distinct, and every item it adds is pending, without error and
    without document. *)
Theorem Submit_keeps_files_distinct
    (fileList : list File.t) (st : ComponentState)
    (Hbatch : NoDup (file_ref <$> files st))
    (Hnew : NoDup (File.ref <$> fileList))
    (Hfresh : ∀ f g, f ∈ fileList → g ∈ files st → File.ref f ≠ file_ref g) :
  let st' := validateAndAddFiles fileList st in
  NoDup (file_ref <$> files st')
  ∧ (∀ i item, (length (files st) ≤ i)%nat → files st' !! i = Some item →
       item = pending_item (FileUploadState.file item)
       ∧ FileUploadState.file item ∈ fileList).
Proof.
  intros st'.
  pose proof (validateAndAddFiles_files fileList st) as Hfiles.
  fold st' in Hfiles. rewrite Hfiles. split.
  - rewrite fmap_app. apply NoDup_app. split_and!; [done| |].
    + intros r Hold (item & -> & Hitem)%list_elem_of_fmap.
      apply list_elem_of_fmap in Hitem as (f & -> & Hf).
      apply list_elem_of_filter in Hf as [_ Hf].
      apply list_elem_of_fmap in Hold as (g & Href & Hg).
      by apply (Hfresh f g).
    + rewrite <- list_fmap_compose.
      eapply sublist_NoDup; [exact Hnew|].
      apply fmap_sublist, sublist_filter.
  - intros i item Hi Hitem.
    rewrite lookup_app_r in Hitem by done.
    apply list_lookup_fmap_Some in Hitem as (f & -> & Hf).
    split; [done|]. simpl.
    apply list_elem_of_lookup_2, list_elem_of_filter in Hf. tauto.
Qed.

Lemma Submit_keeps_files_distinct_witness :
  let st' := validateAndAddFiles [e_pdf; a_txt; f_webp] two_pending in
  files st'
  = [pending_item c_pdf; pending_item d_png; pending_item e_pdf;
     pending_item f_webp]
  ∧ NoDup (file_ref <$> files st')
  ∧ (∀ item, files st' !! 3%nat = Some item →
       item = pending_item (FileUploadState.file item)
       ∧ FileUploadState.file item ∈ [e_pdf; a_txt; f_webp]).
Proof.
  intros st'.
  assert (NoDup (file_ref <$> files two_pending)) as Hbatch.
  { apply (bool_decide_unpack _). by vm_compute. }
  assert (NoDup (File.ref <$> [e_pdf; a_txt; f_webp])) as Hnew.
  { apply (bool_decide_unpack _). by vm_compute. }
  assert (∀ f g, f ∈ [e_pdf; a_txt; f_webp] → g ∈ files two_pending →
                 File.ref f ≠ file_ref g) as Hfresh.
  { intros f g Hf Hg.
    apply list_elem_of_In in Hf, Hg. simpl in Hf, Hg.
    destruct Hf as [<-|[<-|[<-|[]]]], Hg as [<-|[<-|[]]]; discriminate. }
  destruct (Submit_keeps_files_distinct [e_pdf; a_txt; f_webp] two_pending
              Hbatch Hnew Hfresh) as (Hdistinct & Hadded).
  split_and!.
  - reflexivity.
  - exact Hdistinct.
  - intros item Hitem. apply (Hadded 3%nat item); [simpl; lia|exact Hitem].
Defined.

(** X9. [handleRemoveFile] deletes the item at the index and nothing else:
    the items left are the other items in their order, distinct objects
    stay distinct, the error cell is kept, and an index beyond the end of
    the batch changes nothing. *)
Theorem handleRemoveFile_deletes_one_index
    (index : nat) (st : ComponentState) :
  let st' := handleRemoveFile index st in
  files st' = delete index (files st)
  ∧ globalError st' = globalError st
  ∧ sublist (files st') (files st)
  ∧ (NoDup (file_ref <$> files st) → NoDup (file_ref <$> files st'))
  ∧ ((length (files st) ≤ index)%nat → st' = st).
Proof.
  intros st'.
  assert (files st' = delete index (files st)) as Hdel.
  { unfold st', handleRemoveFile. simpl. by apply filter_index_delete. }
  rewrite Hdel. split_and!; [done..|apply sublist_delete| |].
  - intros Hnd. eapply sublist_NoDup; [exact Hnd|].
    apply fmap_sublist, sublist_delete.
  - intros Hge. destruct st as [fs ge], st' as [fs' ge'] eqn:Hst'.
    unfold st', handleRemoveFile in Hst'. simpl in *.
    injection Hst' as <- <-. f_equal.
    rewrite filter_index_delete with (j := index) by done.
    clear -Hge. revert index Hge.
    induction fs as [|f fs IH]; intros [|index] Hge; simpl in *; try done; [lia|].
    f_equal. apply IH. lia.
Qed.

Lemma handleRemoveFile_deletes_one_index_witness :
  handleRemoveFile 5 two_pending = two_pending
  ∧ NoDup (file_ref <$> files (handleRemoveFile 0 two_pending)).
Proof.
  destruct (handleRemoveFile_deletes_one_index 5 two_pending)
    as (_ & _ & _ & _ & Hout).
  destruct (handleRemoveFile_deletes_one_index 0 two_pending)
    as (_ & _ & _ & Hnd & _).
  split.
  - apply Hout. simpl. lia.
  - apply Hnd. apply (bool_decide_unpack _). by vm_compute.
Defined.

(** ** Analysing the batch *)

Section batch_more.
Variable setItem_throws : LocalStorage → Payload → option JsError.
Variable user : User.t.
Variable base64Promise : File.t → completion string.
Variable analyzeContract : string → string → completion ContractAnalysis.t.
Variable generateId : File.t → string.
Variable Date_now : File.t → Z.
Variable toISOString : Z → string.

Local Abbreviation newContract := (newContract_of user generateId Date_now).
Local Abbreviation recentAnalysis := (recentAnalysis_of toISOString).
Local Abbreviation process :=
  (processFile setItem_throws user base64Promise analyzeContract generateId
     Date_now toISOString).
Local Abbreviation process_all :=
  (Promise_all_processFile setItem_throws user base64Promise analyzeContract
     generateId Date_now toISOString).
Local Abbreviation analyze_all :=
  (handleAnalyzeAll setItem_throws user base64Promise analyzeContract
     generateId Date_now toISOString).
Local Abbreviation fails_before_store :=
  (Dispatch.fails_before_store base64Promise analyzeContract).
Local Abbreviation succeeds_with :=
  (Dispatch.succeeds_with setItem_throws user base64Promise analyzeContract
     generateId Date_now).

Lemma merge_result_refs (next : list FileUploadState.t) (res : FileUploadState.t) :
  file_ref <$> merge_result next res = file_ref <$> next.
Proof.
  unfold merge_result.
  destruct (list_find (same_file res) next) as [[idx f]|] eqn:Hfind; [|done].
  apply list_find_Some in Hfind as (Hidx & Hsame & _).
  rewrite list_fmap_insert. apply list_insert_id.
  rewrite list_lookup_fmap, Hidx. simpl. f_equal. exact Hsame.
Qed.

Lemma merge_result_not_pending (next : list FileUploadState.t)
    (res : FileUploadState.t) :
  Forall (λ f, ¬ is_pending f) next → ¬ is_pending res →
  Forall (λ f, ¬ is_pending f) (merge_result next res).
Proof.
  intros Hnext Hres. unfold merge_result.
  destruct (list_find (same_file res) next) as [[idx f]|]; [|done].
  by apply Forall_insert.
Qed.

Lemma processFile_not_pending (fileState : FileUploadState.t) (ls : LocalStorage) :
  ¬ is_pending (process fileState ls).1.
Proof.
  destruct (processFile_terminal setItem_throws user base64Promise analyzeContract
              generateId Date_now toISOString fileState ls)
    as [(doc & _ & Hs & _)|(_ & Herr)].
  - by rewrite Hs.
  - by rewrite Herr.
Qed.

Lemma process_all_not_pending (l : list FileUploadState.t) (ls : LocalStorage) :
  Forall (λ f, ¬ is_pending f) (process_all l ls).1.
Proof.
  eapply Forall2_Forall_r;
    [apply (process_all_results setItem_throws user base64Promise analyzeContract
              generateId Date_now toISOString)|].
  apply Forall_forall. intros f _ res [ls_i ->]. apply processFile_not_pending.
Qed.

Lemma mark_processing_not_pending (l : list FileUploadState.t) :
  Forall (λ f, ¬ is_pending f) (mark_processing <$> l).
Proof.
  apply Forall_fmap, Forall_forall. intros f _. simpl.
  unfold mark_processing. by case_bool_decide.
Qed.

Lemma mark_processing_refs (l : list FileUploadState.t) :
  file_ref <$> (mark_processing <$> l) = file_ref <$> l.
Proof.
  rewrite <- list_fmap_compose. apply list_fmap_ext. intros i f _. simpl.
  unfold mark_processing, file_ref. by case_bool_decide.
Qed.

(** What every call of [handleAnalyzeAll] leaves, on any batch. *)
Lemma handleAnalyzeAll_after (st : ComponentState) (ls : LocalStorage) :
  let out := analyze_all st ls in
  file_ref <$> files (state_after out) = file_ref <$> files st
  ∧ Forall (λ f, ¬ is_pending f) (files (state_after out))
  ∧ globalError (state_after out) = globalError st.
Proof.
  intros out.
  destruct (handleAnalyzeAll_fields setItem_throws user base64Promise
              analyzeContract generateId Date_now toISOString st ls)
    as (Hfiles & Herr & _).
  fold out in Hfiles, Herr. rewrite Hfiles. clear Hfiles.
  split_and!; [| |done].
  - rewrite <- (mark_processing_refs (files st)).
    generalize (mark_processing <$> files st).
    induction ((process_all _ ls).1) as [|res results IH]; intros next; [done|].
    etrans; [apply IH|apply merge_result_refs].
  - pose proof (process_all_not_pending
                  (filter (λ f, is_pending f) (files st)) ls) as Hres.
    pose proof (mark_processing_not_pending (files st)) as Hprev.
    revert Hprev. generalize (mark_processing <$> files st).
    induction Hres as [|res results Hr _ IH]; intros next Hnext; [done|].
    simpl. by apply IH, merge_result_not_pending.
Qed.

(** X10. Whatever the batch, [handleAnalyzeAll] leaves no item pending; the
    batch keeps its length and its [File] objects in their places, and the
    error cell is untouched. *)
Theorem AnalyzeAll_leaves_no_item_pending
    (st : ComponentState) (ls : LocalStorage) :
  let out := analyze_all st ls in
  Forall (λ f, FileUploadState.status f ≠ pending) (files (state_after out))
  ∧ length (files (state_after out)) = length (files st)
  ∧ file_ref <$> files (state_after out) = file_ref <$> files st
  ∧ globalError (state_after out) = globalError st.
Proof.
  intros out.
  destruct (handleAnalyzeAll_after st ls) as (Hrefs & Hnone & Herr).
  fold out in Hrefs, Hnone, Herr.
  split_and!; [done| |done..].
  by rewrite <- (length_fmap file_ref), Hrefs, length_fmap.
Qed.
(** X11. Calling [handleAnalyzeAll] again on what a call has left changes
    neither the items nor the storage and never calls [onUploadComplete]:
    nothing is dispatched twice. *)
Theorem AnalyzeAll_again_changes_nothing
    (st : ComponentState) (ls : LocalStorage) :
  let first := analyze_all st ls in
  let second := analyze_all (state_after first) (storage_after first) in
  state_after second = state_after first
  ∧ storage_after second = storage_after first
  ∧ onUploadComplete second = None.
Proof.
  intros first second.
  destruct (handleAnalyzeAll_after st ls) as (_ & Hnone & _).
  destruct (handleAnalyzeAll_nothing_pending setItem_throws user base64Promise
              analyzeContract generateId Date_now toISOString
              (state_after first) (storage_after first) Hnone)
    as (H1 & H2 & H3 & _).
  done.
Qed.

(** The storage a successful dispatch leaves. *)
Lemma processFile_success_storage (fileState : FileUploadState.t)
    (ls : LocalStorage) (doc : Contract.t) :
  succeeds_with fileState ls doc →
  ∃ analysis ls1,
    Contract.analysis doc = Some analysis
    ∧ doc = newContract (FileUploadState.file fileState)
              (default EmptyString (Contract.fileData doc)) analysis
    ∧ saveContract setItem_throws doc ls = (Return doc, ls1)
    ∧ (process fileState ls).2
      = (saveRecentAnalysis setItem_throws (recentAnalysis doc analysis) ls1).2.
Proof.
  intros (b & an & ls1 & Hb & Han & -> & Hsave).
  exists an, ls1. split_and!; [done..|].
  unfold processFile, processFile_try, bind, lift, ret.
  rewrite Hb, Han, Hsave.
  pose proof (saveRecentAnalysis_returns setItem_throws
                (recentAnalysis (newContract (FileUploadState.file fileState) b an) an)
                ls1) as (Hret & _).
  by destruct (saveRecentAnalysis _ _ _) as [[[]|?] ?]; simplify_eq/=.
Qed.

(** X12. The document of a successful dispatch is in the store: the lookup
    by its id finds it (or its copy without [fileData] after a capacity
    retry), it is listed among the documents of the component's user, the
    lookup of the other ids is as before, and when the storage accepts the
    cache write a recent-analysis cache that read as an array starts with
    the entry derived from it, under the same id and the file's name.  A
    cache that read as a value that is not an array still reads as that
    value: the entry is not recorded. *)
Theorem processFile_success_is_persisted
    (fileState : FileUploadState.t) (ls : LocalStorage) (doc : Contract.t)
    (Hok : succeeds_with fileState ls doc) :
  let ls' := (process fileState ls).2 in
  (∃ stored,
     getContractById (Contract.id doc) ls' = Some stored
     ∧ (stored = doc ∨ stored = Contract.without_fileData doc)
     ∧ stored ∈ getContracts (User.id user) ls')
  ∧ (∀ id, id ≠ Contract.id doc → getContractById id ls' = getContractById id ls)
  ∧ ((∀ s l, setItem_throws s (PRecent l) = None) →
     match getRecentAnalyses ls with
     | Array _ =>
         ∃ entry rest,
           getRecentAnalyses ls' = Array (entry :: rest)
           ∧ RecentAnalysis.id entry = Contract.id doc
           ∧ RecentAnalysis.name entry
             = File.name (FileUploadState.file fileState)
     | NotArray v => getRecentAnalyses ls' = NotArray v
     end).
Proof.
  intros ls'.
  destruct (processFile_success_storage fileState ls doc Hok)
    as (an & ls1 & Han & Hdoc & Hsave & Hls').
  fold ls' in Hls'.
  destruct (saveContract_read_back setItem_throws doc doc ls ls1 Hsave)
    as (_ & (stored & Hget & Hwhich & Hlisted) & Hother).
  destruct (saveRecentAnalysis_returns setItem_throws (recentAnalysis doc an) ls1)
    as (_ & Hcontracts).
  rewrite <- Hls' in Hcontracts.
  assert (getRecentAnalyses ls1 = getRecentAnalyses ls) as Hcache.
  { destruct (saveContract_outcomes setItem_throws doc ls) as (Hrecent & _).
    rewrite Hsave in Hrecent. simpl in Hrecent.
    unfold getRecentAnalyses, getRecentAnalyses_body. by rewrite Hrecent. }
  assert (∀ id, getContractById id ls' = getContractById id ls1) as Hsame.
  { intros id. unfold getContractById, getContractById_body.
    by rewrite Hcontracts. }
  split_and!.
  - exists stored. split_and!; [by rewrite Hsame|done|].
    replace (User.id user) with (Contract.userId doc) by by rewrite Hdoc.
    unfold getContracts, getContracts_body in *. by rewrite Hcontracts.
  - intros id Hne. rewrite Hsame. by apply Hother.
  - intros Haccepted. rewrite <- Hcache.
    destruct (getRecentAnalyses ls1) as [cache|v] eqn:Hread1.
    + pose proof (getRecentAnalyses_step setItem_throws (recentAnalysis doc an)
                    ls1 cache Hread1) as Hread.
      cbv zeta in Hread. rewrite Haccepted, <- Hls' in Hread.
      eexists _, _. split; [exact Hread|]. split; [done|].
      by rewrite Hdoc.
    + rewrite Hls'.
      by rewrite (saveRecentAnalysis_not_array setItem_throws _ ls1 v Hread1).
Qed.

(** A batch in which every dispatch ends in the error item without
    touching the storage. *)
Lemma process_all_all_fail (l : list FileUploadState.t) (ls : LocalStorage) :
  (∀ f, f ∈ l → process f ls = (error_item f, ls)) →
  process_all l ls = (error_item <$> l, ls).
Proof.
  induction l as [|f l IH]; intros Hfail; [done|].
  simpl. rewrite (Hfail f) by by left.
  rewrite IH; [done|]. intros g Hg. apply Hfail. by right.
Qed.

Lemma replace_pending_fmap (g : FileUploadState.t → FileUploadState.t)
    (batch : list FileUploadState.t) :
  replace_pending batch (g <$> filter (λ f, is_pending f) batch)
  = (λ f, if decide (is_pending f) then g f else f) <$> batch.
Proof.
  induction batch as [|f batch IH]; [done|].
  rewrite filter_cons, fmap_cons. simpl.
  destruct (decide (is_pending f)) as [Hp|Hp].
  - rewrite bool_decide_eq_true_2 by done. rewrite fmap_cons. by rewrite IH.
  - rewrite bool_decide_eq_false_2 by done. by rewrite IH.
Qed.

Lemma handleAnalyzeAll_all_fail (st : ComponentState) (ls : LocalStorage) :
  (∀ f, f ∈ files st → is_pending f → process f ls = (error_item f, ls)) →
  let out := analyze_all st ls in
  storage_after out = ls
  ∧ onUploadComplete out = None
  ∧ (NoDup (file_ref <$> files st) →
     files (state_after out)
     = (λ f, if decide (is_pending f) then error_item f else f) <$> files st).
Proof.
  intros Hfail out.
  assert (process_all (filter (λ f, is_pending f) (files st)) ls
          = (error_item <$> filter (λ f, is_pending f) (files st), ls)) as Hall.
  { apply process_all_all_fail. intros f [Hp Hin]%list_elem_of_filter.
    by apply Hfail. }
  destruct (handleAnalyzeAll_fields setItem_throws user base64Promise
              analyzeContract generateId Date_now toISOString st ls)
    as (_ & _ & Hls & Hnav & _).
  fold out in Hls, Hnav. rewrite Hall in Hls, Hnav. simpl in Hls, Hnav.
  split_and!; [done| |].
  - rewrite Hnav. destruct (bool_decide _); [|done].
    by destruct (filter _ (files st)).
  - intros Hfresh. unfold out.
    rewrite (handleAnalyzeAll_files setItem_throws user base64Promise
               analyzeContract generateId Date_now toISOString st ls Hfresh).
    rewrite Hall. simpl. apply replace_pending_fmap.
Qed.

(** X13. On a document store that cannot be parsed, or that parses to a
    value that is not an array, no upload can succeed: every dispatch ends
    in the error item, the storage is left exactly as it was (the cache is
    not written either), and [handleAnalyzeAll] turns every pending item
    into its error item without calling [onUploadComplete]. *)
Theorem corrupted_document_store_fails_every_upload
    (st : ComponentState) (ls : LocalStorage)
    (Hbad : corrupted (CONTRACTS ls) = true) :
  let out := analyze_all st ls in
  (∀ fileState, process fileState ls = (error_item fileState, ls))
  ∧ storage_after out = ls
  ∧ onUploadComplete out = None
  ∧ (NoDup (file_ref <$> files st) →
     files (state_after out)
     = (λ f, if decide (is_pending f) then error_item f else f) <$> files st).
Proof.
  intros out.
  assert (∀ fileState, process fileState ls = (error_item fileState, ls)) as Hfail.
  { intros fileState.
    unfold processFile, processFile_try, bind, lift, ret.
    destruct (base64Promise _) as [b|e]; [|done].
    destruct (analyzeContract _ _) as [an|e]; [|done].
    destruct (saveContract_outcomes setItem_throws
                (newContract (FileUploadState.file fileState) b an) ls)
      as (_ & [(e & _ & _ & ->)|(all & Hall & _)]); [done|].
    unfold stored_contracts, corrupted in *.
    by destruct (CONTRACTS ls) as [[]|]. }
  split; [done|].
  apply handleAnalyzeAll_all_fail. intros f _ _. apply Hfail.
Qed.

(** X14. When the conversion or the analysis call fails for every pending
    file, [handleAnalyzeAll] writes nothing to the storage, never calls
    [onUploadComplete] and turns every pending item into its error item. *)
Theorem failing_analysis_writes_nothing
    (st : ComponentState) (ls : LocalStorage)
    (Hfail : ∀ f, f ∈ files st → is_pending f → fails_before_store f) :
  let out := analyze_all st ls in
  storage_after out = ls
  ∧ onUploadComplete out = None
  ∧ (NoDup (file_ref <$> files st) →
     files (state_after out)
     = (λ f, if decide (is_pending f) then error_item f else f) <$> files st).
Proof.
  apply handleAnalyzeAll_all_fail. intros f Hin Hp.
  by apply (processFile_fails_before_store setItem_throws user base64Promise
              analyzeContract generateId Date_now toISOString), Hfail.
Qed.
End batch_more.

Lemma processFile_success_is_persisted_witness :
  ∃ entry rest,
    getRecentAnalyses
      (processFile accept_all alice reader client id_of clock iso
         (pending_item c_pdf) empty_storage).2 = Array (entry :: rest)
    ∧ RecentAnalysis.id entry = "id-c.pdf"
    ∧ RecentAnalysis.name entry = "c.pdf".
Proof.
  refine (proj2 (proj2 (processFile_success_is_persisted accept_all alice reader
                          client id_of clock iso (pending_item c_pdf)
                          empty_storage c_pdf_contract _)) (λ _ _, eq_refl)).
  exists "JVBERi0=", analysis_ok. eexists. split_and!; reflexivity.
Defined.

Lemma corrupted_document_store_fails_every_upload_witness :
  storage_after (handleAnalyzeAll accept_all alice reader client id_of clock iso
                   two_pending corrupted_storage) = corrupted_storage
  ∧ files (state_after (handleAnalyzeAll accept_all alice reader client id_of
                          clock iso two_pending corrupted_storage))
    = [error_item (pending_item c_pdf); error_item (pending_item d_png)].
Proof.
  destruct (corrupted_document_store_fails_every_upload accept_all alice reader
              client id_of clock iso two_pending corrupted_storage eq_refl)
    as (_ & Hls & _ & Hfiles).
  split; [exact Hls|]. rewrite Hfiles; [reflexivity|].
  apply (bool_decide_unpack _). by vm_compute.
Defined.

Lemma failing_analysis_writes_nothing_witness :
  storage_after (handleAnalyzeAll accept_all alice reader client id_of clock iso
                   one_png three_contracts) = three_contracts.
Proof.
  refine (proj1 (failing_analysis_writes_nothing accept_all alice reader client
                   id_of clock iso one_png three_contracts _)).
  intros f Hf _. apply list_elem_of_singleton in Hf as ->.
  right. exists "JVBERi0=", service_down. by split.
Defined.

(** * Properties of the analysis client *)

(** X15. [analyzeContract] answers with an analysis only when the API key
    is set, the service returned a non-empty text and that text parses to
    the analysis; without a key it throws whatever the service would say,
    and a failure of the service or of the parse is thrown on to the
    caller. *)
Theorem analyzeContract_returns_only_parsed_answers
    (API_KEY : string)
    (generateContent : string → string → completion (option string))
    (JSON_parse_analysis : string → completion ContractAnalysis.t)
    (base64Data mimeType : string) :
  let result :=
    geminiService.analyzeContract API_KEY generateContent JSON_parse_analysis
      base64Data mimeType in
  (API_KEY = EmptyString → result = Throw Error)
  ∧ (∀ analysis, result = Return analysis →
       API_KEY ≠ EmptyString
       ∧ ∃ text, text ≠ EmptyString
           ∧ generateContent mimeType base64Data = Return (Some text)
           ∧ JSON_parse_analysis text = Return analysis)
  ∧ (∀ e, API_KEY ≠ EmptyString →
       generateContent mimeType base64Data = Throw e → result = Throw e)
  ∧ (∀ text e, API_KEY ≠ EmptyString →
       generateContent mimeType base64Data = Return (Some text) →
       JSON_parse_analysis text = Throw e → ∃ e', result = Throw e').
Proof.
  intros result. subst result. unfold geminiService.analyzeContract, is_empty.
  split_and!.
  - intros ->. done.
  - intros analysis. case_bool_decide as Hkey; [done|].
    destruct (generateContent mimeType base64Data) as [[t|]|e]; [|done..].
    case_bool_decide as Ht; [done|]. intros Hparse. split; [done|].
    by exists t.
  - intros e Hkey ->. by rewrite bool_decide_eq_false_2.
  - intros text e Hkey -> Hparse. rewrite bool_decide_eq_false_2 by done.
    case_bool_decide; [by eexists|]. rewrite Hparse. by eexists.
Qed.

Lemma analyzeContract_returns_only_parsed_answers_witness :
  geminiService.analyzeContract EmptyString service_text parse_ok "JVBERi0="
    "application/pdf" = Throw Error
  ∧ geminiService.analyzeContract "key" service_text parse_ok "JVBERi0="
      "application/pdf" = Return analysis_ok.
Proof.
  destruct (analyzeContract_returns_only_parsed_answers EmptyString service_text
              parse_ok "JVBERi0=" "application/pdf") as (Hnokey & _).
  destruct (analyzeContract_returns_only_parsed_answers "key" service_text
              parse_ok "JVBERi0=" "application/pdf") as (_ & Hret & _).
  split; [exact (Hnokey eq_refl)|].
  destruct (Hret analysis_ok eq_refl) as (_ & text & _ & _ & _). reflexivity.
Defined.

(** X16. Without an API key every upload fails and nothing is stored:
    [handleAnalyzeAll], run with [analyzeContract] as its analysis client,
    leaves the storage as it was, never calls [onUploadComplete] and turns
    every pending item into its error item. *)
Theorem missing_API_key_fails_every_upload
    (setItem_throws : LocalStorage → Payload → option JsError)
    (user : User.t) (base64Promise : File.t → completion string)
    (generateContent : string → string → completion (option string))
    (JSON_parse_analysis : string → completion ContractAnalysis.t)
    (generateId : File.t → string) (Date_now : File.t → Z)
    (toISOString : Z → string)
    (st : ComponentState) (ls : LocalStorage) :
  let out :=
    handleAnalyzeAll setItem_throws user base64Promise
      (geminiService.analyzeContract EmptyString generateContent
         JSON_parse_analysis)
      generateId Date_now toISOString st ls in
  storage_after out = ls
  ∧ onUploadComplete out = None
  ∧ (NoDup (file_ref <$> files st) →
     files (state_after out)
     = (λ f, if decide (is_pending f) then error_item f else f) <$> files st).
Proof.
  apply handleAnalyzeAll_all_fail. intros f _ _.
  apply processFile_fails_before_store.
  unfold Dispatch.fails_before_store.
  destruct (base64Promise (FileUploadState.file f)) as [b|e]; [|by left; eexists].
  right. by exists b, Error.
Qed.

Lemma missing_API_key_fails_every_upload_witness :
  files (state_after
           (handleAnalyzeAll accept_all alice reader
              (geminiService.analyzeContract EmptyString service_text parse_ok)
              id_of clock iso two_pending empty_storage))
  = [error_item (pending_item c_pdf); error_item (pending_item d_png)].
Proof.
  rewrite (proj2 (proj2 (missing_API_key_fails_every_upload accept_all alice
                           reader service_text parse_ok id_of clock iso
                           two_pending empty_storage))); [reflexivity|].
  apply (bool_decide_unpack _). by vm_compute.
Defined.

(** ** The question and chat helpers *)

Lemma text_or_not_empty (text : option string) (fallback : string) :
  fallback ≠ EmptyString → text_or text fallback ≠ EmptyString.
Proof.
  intros Hfb. unfold text_or, is_empty.
  destruct text as [t|]; [|done]. by case_bool_decide.
Qed.

Lemma chat_contents_snoc (history : list ChatMessage.t) (newMessage : string) :
  geminiService.chat_contents history newMessage
  = history ++ [ChatMessage.mk "user" newMessage].
Proof.
  unfold geminiService.chat_contents. f_equal.
  induction history as [|[role text] history IH]; [done|].
  rewrite fmap_cons. simpl. by rewrite IH.
Qed.

(** X17. [askClauseQuestion] and [sendChatMessage] always come back with a
    non-empty reply, whatever the service does.  Without an API key the
    reply is "API Key missing." whatever the service would say.  With a
    key, each of the two returns the text of the service's response when
    there is one and it is not empty, its own fixed sentence when the
    response has no text or an empty one, and its other fixed sentence
    when the request fails.  The request [sendChatMessage] makes carries
    the whole history in order, followed by the new message under the role
    "user", and the contract context. *)
Theorem assistant_replies_are_never_empty
    (API_KEY : string)
    (generateContent_analysis : string → string → completion (option string))
    (generateContent_question : string → string → completion (option string))
    (generateContent_chat : list ChatMessage.t → string → completion (option string))
    (clauseText question : string)
    (history : list ChatMessage.t) (newMessage contractContext : string) :
  let answer :=
    geminiService.askClauseQuestion API_KEY generateContent_question
      clauseText question in
  let reply :=
    geminiService.sendChatMessage API_KEY generateContent_chat history newMessage
      contractContext in
  answer ≠ EmptyString
  ∧ reply ≠ EmptyString
  ∧ (API_KEY = EmptyString →
     answer = "API Key missing." ∧ reply = "API Key missing.")
  ∧ (∀ text, API_KEY ≠ EmptyString → text ≠ EmptyString →
       generateContent_question clauseText question = Return (Some text) →
       answer = text)
  ∧ (API_KEY ≠ EmptyString →
     match generateContent_question clauseText question with
     | Return (Some text) =>
         answer = if decide (text = EmptyString)
                  then "Could not generate an answer." else text
     | Return None => answer = "Could not generate an answer."
     | Throw _ => answer = "Sorry, I couldn't answer that right now."
     end)
  ∧ (API_KEY ≠ EmptyString →
     match generateContent_chat (history ++ [ChatMessage.mk "user" newMessage])
             contractContext with
     | Return (Some text) =>
         reply = if decide (text = EmptyString)
                 then "I couldn't generate a response." else text
     | Return None => reply = "I couldn't generate a response."
     | Throw _ =>
         reply = "Sorry, I'm having trouble connecting right now. Please try again."
     end)
  ∧ geminiService.chat_contents history newMessage
    = history ++ [ChatMessage.mk "user" newMessage].
Proof.
  intros answer reply. subst answer reply.
  unfold geminiService.askClauseQuestion, geminiService.sendChatMessage.
  rewrite chat_contents_snoc.
  split_and!.
  - unfold is_empty at 1. case_bool_decide; [done|].
    destruct (generateContent_question _ _) as [text|e]; simpl; [|done].
    by apply text_or_not_empty.
  - unfold is_empty at 1. case_bool_decide; [done|].
    destruct (generateContent_chat _ _) as [text|e]; simpl; [|done].
    by apply text_or_not_empty.
  - intros ->. done.
  - intros text Hkey Htext ->. unfold is_empty at 1.
    rewrite bool_decide_eq_false_2 by done. simpl.
    unfold is_empty. by rewrite bool_decide_eq_false_2.
  - intros Hkey. unfold is_empty.
    rewrite (bool_decide_eq_false_2 (API_KEY = EmptyString)) by done.
    destruct (generateContent_question _ _) as [[text|]|e]; simpl; [|done..].
    unfold is_empty. by destruct (decide (text = EmptyString));
      [rewrite bool_decide_eq_true_2|rewrite bool_decide_eq_false_2].
  - intros Hkey. unfold is_empty.
    rewrite (bool_decide_eq_false_2 (API_KEY = EmptyString)) by done.
    destruct (generateContent_chat _ _) as [[text|]|e]; simpl; [|done..].
    unfold is_empty. by destruct (decide (text = EmptyString));
      [rewrite bool_decide_eq_true_2|rewrite bool_decide_eq_false_2].
  - done.
Qed.

Lemma assistant_replies_are_never_empty_witness :
  geminiService.askClauseQuestion EmptyString no_answer "clause" "why?"
  = "API Key missing."
  ∧ geminiService.askClauseQuestion "key" (λ _ _, Return (Some "Because."))
      "clause" "why?" = "Because."
  ∧ geminiService.sendChatMessage "key" echo_chat
      [ChatMessage.mk "model" "Welcome."] "hello" EmptyString = "hello"
  ∧ geminiService.sendChatMessage "key" chat_down [] "hello" EmptyString
    = "Sorry, I'm having trouble connecting right now. Please try again.".
Proof.
  destruct (assistant_replies_are_never_empty EmptyString service_text no_answer
              chat_down "clause" "why?" [] "hello" EmptyString)
    as (_ & _ & Hnokey & _).
  destruct (assistant_replies_are_never_empty "key" service_text
              (λ _ _, Return (Some "Because.")) chat_down "clause" "why?" []
              "hello" EmptyString)
    as (_ & _ & _ & Htext & _ & Hdown & _).
  destruct (assistant_replies_are_never_empty "key" service_text no_answer
              echo_chat "clause" "why?" [ChatMessage.mk "model" "Welcome."]
              "hello" EmptyString)
    as (_ & _ & _ & _ & _ & Hecho & _).
  split_and!.
  - exact (proj1 (Hnokey eq_refl)).
  - apply Htext; [discriminate|discriminate|reflexivity].
  - apply Hecho. discriminate.
  - apply Hdown. discriminate.
Defined.

(** ** Asking about a clause *)

(** X18. [handleAsk], with [askClauseQuestion] as its helper: a question
    that is blank after trimming changes nothing and updates nothing.
    Otherwise the input is cleared, and when [onUpdate] was passed it is
    called once with the clause unchanged and its conversation history
    extended by exactly one item at the end, the earlier items kept; the
    item holds the question as typed and a non-empty answer. *)
Theorem handleAsk_appends_one_answered_item
    (trim : string → string) (API_KEY : string)
    (generateContent_question : string → string → completion (option string))
    (Date_now : Z) (clause : ClauseProp.t) (has_onUpdate : bool)
    (st : ClauseCard.State) :
  let out :=
    ClauseCard.handleAsk trim
      (geminiService.askClauseQuestion API_KEY generateContent_question)
      Date_now clause has_onUpdate st in
  let history := default [] (ClauseProp.conversationHistory clause) in
  (trim (ClauseCard.question st) = EmptyString →
     out = ClauseCard.mkOutcome st None)
  ∧ (trim (ClauseCard.question st) ≠ EmptyString →
     ClauseCard.state_after out = ClauseCard.mkState EmptyString false
     ∧ (has_onUpdate = false → ClauseCard.onUpdate out = None)
     ∧ (has_onUpdate = true →
        ∃ item,
          ClauseCard.onUpdate out
          = Some (ClauseProp.mk (ClauseProp.clause clause)
                    (Some (history ++ [item])))
          ∧ HistoryItem.question item = ClauseCard.question st
          ∧ HistoryItem.answer item ≠ EmptyString
          ∧ HistoryItem.timestamp item = Date_now)).
Proof.
  intros out history. subst out history. unfold ClauseCard.handleAsk, is_empty.
  split.
  - intros ->. done.
  - intros Hq. rewrite bool_decide_eq_false_2 by done.
    destruct has_onUpdate; simpl; split_and!; try done.
    intros _. eexists. split_and!; [reflexivity|done| |done].
    simpl. unfold geminiService.askClauseQuestion.
    unfold is_empty at 1. case_bool_decide; [done|].
    destruct (generateContent_question _ _) as [text|e]; simpl; [|done].
    by apply text_or_not_empty.
Qed.

Lemma handleAsk_appends_one_answered_item_witness :
  ClauseCard.handleAsk (λ s, s)
    (geminiService.askClauseQuestion "key" no_answer) 1710000000000 sample_clause
    true (ClauseCard.mkState "Is this fair?" false)
  = ClauseCard.mkOutcome (ClauseCard.mkState EmptyString false)
      (Some (ClauseProp.mk (ClauseProp.clause sample_clause)
               (Some [HistoryItem.mk "Is this fair?"
                        "Could not generate an answer." 1710000000000])))
  ∧ ClauseCard.handleAsk (λ s, s)
      (geminiService.askClauseQuestion "key" no_answer) 1710000000000
      sample_clause true (ClauseCard.mkState EmptyString true)
    = ClauseCard.mkOutcome (ClauseCard.mkState EmptyString true) None.
Proof.
  destruct (handleAsk_appends_one_answered_item (λ s, s) "key" no_answer
              1710000000000 sample_clause true
              (ClauseCard.mkState "Is this fair?" false)) as (_ & Hask).
  destruct (handleAsk_appends_one_answered_item (λ s, s) "key" no_answer
              1710000000000 sample_clause true
              (ClauseCard.mkState EmptyString true)) as (Hblank & _).
  split; [|exact (Hblank eq_refl)].
  assert ("Is this fair?" ≠ EmptyString) as Hq by discriminate.
  destruct (Hask Hq) as (_ & _ & Hupd).
  destruct (Hupd eq_refl) as (item & _). reflexivity.
Defined.

(** * Properties of the user records *)

Section accounts_facts.
Context {U : Type}.
Variable user_id : U → string.
Variable spread : U → U → U.
Variable setItem_throws : Accounts.Storage (U:=U) → Accounts.Payload (U:=U)
                          → option JsError.

Local Abbreviation getUsers := (Accounts.getUsers (U:=U)).
Local Abbreviation put_user := (Accounts.put_user user_id spread).
Local Abbreviation saveUser := (Accounts.saveUser user_id spread setItem_throws).
Local Abbreviation setCurrentUser := (Accounts.setCurrentUser setItem_throws).
Local Abbreviation ids := (fmap (M:=list) user_id).

(** What [saveUser] leaves under the users key. *)
Lemma saveUser_step (user : U) (ls : Accounts.Storage) (stored : list U) :
  getUsers ls = Array stored →
  let users := put_user user stored in
  let ls' := saveUser user ls in
  Accounts.CURRENT_USER ls' = Accounts.CURRENT_USER ls
  ∧ Accounts.setItem_calls ls'
    = Accounts.setItem_calls ls ++ [Accounts.PUsers users]
  ∧ match setItem_throws ls (Accounts.PUsers users) with
    | None => Accounts.USERS ls' = Some (Json users)
              ∧ getUsers ls' = Array users
    | Some _ => Accounts.USERS ls' = Accounts.USERS ls
                ∧ getUsers ls' = getUsers ls
    end.
Proof.
  intros Hstored. unfold Accounts.saveUser. rewrite Hstored. simpl.
  by destruct (setItem_throws ls _).
Qed.

(** On a users text that parses to a value that is not an array,
    [users.findIndex] throws inside the [try] block: nothing is written. *)
Lemma saveUser_not_array (user : U) (ls : Accounts.Storage) (v : NonArray) :
  getUsers ls = NotArray v → saveUser user ls = ls.
Proof. intros Hstored. unfold Accounts.saveUser. by rewrite Hstored. Qed.

(** The object spread keeps the identifier of two objects that share it. *)
Hypothesis spread_id :
  ∀ a b, user_id a = user_id b → user_id (spread a b) = user_id b.

Lemma put_user_ids (user : U) (users : list U) :
  ids (put_user user users)
  = if decide (user_id user ∈ ids users) then ids users
    else ids users ++ [user_id user].
Proof.
  unfold Accounts.put_user.
  destruct (list_find _ users) as [[i x]|] eqn:Hfind.
  - apply list_find_Some in Hfind as (Hi & Hx & _).
    rewrite decide_True.
    + rewrite list_fmap_insert. apply list_insert_id.
      by rewrite list_lookup_fmap, Hi, (spread_id _ _ Hx), <- Hx.
    + rewrite <- Hx. apply list_elem_of_fmap_2. by eapply list_elem_of_lookup_2.
  - apply list_find_None in Hfind.
    rewrite decide_False; [by rewrite fmap_app|].
    intros (x & Hid & Hx)%list_elem_of_fmap.
    eapply Forall_forall in Hfind; [|exact Hx]. by apply Hfind.
Qed.

(** X19. An accepted [saveUser] on a user list that reads as an array
    keeps the list in shape: the list of ids is unchanged when the id is
    known and extended at the end when it is new, distinct ids stay
    distinct, the users with another id stay where and as they were, a new
    user is stored as given and a known one as the spread of the stored
    record and the given one.  The current-user key is not touched. *)
Theorem saveUser_then_getUsers
    (user : U) (ls : Accounts.Storage) (stored : list U)
    (Hstored : getUsers ls = Array stored)
    (Haccepted :
       setItem_throws ls (Accounts.PUsers (put_user user stored)) = None) :
  let ls' := saveUser user ls in
  ∃ stored',
    getUsers ls' = Array stored'
    ∧ ids stored'
      = (if decide (user_id user ∈ ids stored) then ids stored
         else ids stored ++ [user_id user])
    ∧ (NoDup (ids stored) → NoDup (ids stored'))
    ∧ (∀ i other, stored !! i = Some other → user_id other ≠ user_id user →
         stored' !! i = Some other)
    ∧ (user_id user ∉ ids stored → last stored' = Some user)
    ∧ (∀ i existing,
         list_find (λ u, user_id u = user_id user) stored = Some (i, existing) →
         stored' !! i = Some (spread existing user))
    ∧ Accounts.CURRENT_USER ls' = Accounts.CURRENT_USER ls.
Proof.
  intros ls'.
  destruct (saveUser_step user ls stored Hstored) as (Hcurrent & _ & Hstep).
  cbv zeta in Hstep. rewrite Haccepted in Hstep. destruct Hstep as (_ & Hread).
  fold ls' in Hread, Hcurrent.
  exists (put_user user stored).
  split_and!; [done|apply put_user_ids| | | | |done].
  - intros Hnd. rewrite put_user_ids. case_decide as Hin; [done|].
    apply NoDup_app. split_and!; [done| |apply NoDup_singleton].
    intros x Hx ->%list_elem_of_singleton. by apply Hin.
  - intros i other Hi Hne. unfold Accounts.put_user.
    destruct (list_find _ stored) as [[j x]|] eqn:Hfind.
    + apply list_find_Some in Hfind as (Hj & Hx & _).
      rewrite list_lookup_insert_ne; [done|]. intros ->. congruence.
    + by apply lookup_app_l_Some.
  - intros Hnew. unfold Accounts.put_user.
    destruct (list_find _ stored) as [[j x]|] eqn:Hfind.
    + exfalso. apply list_find_Some in Hfind as (Hj & Hx & _).
      apply Hnew. rewrite <- Hx.
      apply list_elem_of_fmap_2. by eapply list_elem_of_lookup_2.
    + apply last_snoc.
  - intros i existing Hfind. unfold Accounts.put_user. rewrite Hfind.
    apply list_find_Some in Hfind as (Hi & _).
    apply list_lookup_insert_eq. by eapply lookup_lt_Some.
Qed.

(** X20. [saveUser] swallows a refused write: the user list is as before.
    On a users text that cannot be parsed, [getUsers] answers with the
    empty list and an accepted [saveUser] replaces the text by the list
    holding the given user alone.  On a users text that parses to a value
    that is not an array, [getUsers] returns that value and [saveUser]
    leaves the storage as it was, without a [setItem] call. *)
Theorem saveUser_on_refusal_and_corruption
    (user : U) (ls : Accounts.Storage) :
  let ls' := saveUser user ls in
  (∀ e, setItem_throws ls
          (Accounts.PUsers (put_user user (entries_of (getUsers ls)))) = Some e →
     Accounts.USERS ls' = Accounts.USERS ls ∧ getUsers ls' = getUsers ls)
  ∧ (Accounts.USERS ls = Some Malformed →
     getUsers ls = Array []
     ∧ (setItem_throws ls (Accounts.PUsers [user]) = None →
        Accounts.USERS ls' = Some (Json [user])))
  ∧ (∀ v, Accounts.USERS ls = Some (JsonOther v) →
     getUsers ls = NotArray v ∧ ls' = ls).
Proof.
  intros ls'. subst ls'. split_and!.
  - intros e He.
    destruct (getUsers ls) as [stored|v] eqn:Hstored.
    + destruct (saveUser_step user ls stored Hstored) as (_ & _ & Hstep).
      cbv zeta in Hstep. change (entries_of (Array stored)) with stored in He.
      rewrite He in Hstep. by rewrite <- Hstored.
    + by rewrite (saveUser_not_array user ls v Hstored).
  - intros Hbad.
    assert (getUsers ls = Array []) as Hempty.
    { unfold Accounts.getUsers, Accounts.getUsers_body. by rewrite Hbad. }
    split; [done|]. intros Hok.
    destruct (saveUser_step user ls [] Hempty) as (_ & _ & Hstep).
    cbv zeta in Hstep. unfold Accounts.put_user in Hstep.
    simpl in Hstep. rewrite Hok in Hstep. tauto.
  - intros v Hother.
    assert (getUsers ls = NotArray v) as Hstored.
    { unfold Accounts.getUsers, Accounts.getUsers_body. by rewrite Hother. }
    split; [done|]. by apply saveUser_not_array with v.
Qed.

(** X21. The current user: an accepted [setCurrentUser] is read back by
    [getCurrentUser], clearing it reads back as no user, a refused write
    reaches the caller as an exception and leaves the stored user as it
    was, and a text that cannot be parsed reads as no user.  The user list
    is never touched. *)
Theorem setCurrentUser_then_getCurrentUser
    (user : U) (ls : Accounts.Storage) :
  (setItem_throws ls (Accounts.PCurrentUser user) = None →
     (setCurrentUser (Some user) ls).1 = Return ()
     ∧ Accounts.getCurrentUser (setCurrentUser (Some user) ls).2 = Some user)
  ∧ (∀ e, setItem_throws ls (Accounts.PCurrentUser user) = Some e →
     (setCurrentUser (Some user) ls).1 = Throw e
     ∧ Accounts.getCurrentUser (setCurrentUser (Some user) ls).2
       = Accounts.getCurrentUser ls)
  ∧ (setCurrentUser None ls).1 = Return ()
  ∧ Accounts.getCurrentUser (setCurrentUser None ls).2 = None
  ∧ (Accounts.CURRENT_USER ls = Some Accounts.MalformedObject →
     Accounts.getCurrentUser ls = None)
  ∧ (∀ u, Accounts.USERS (setCurrentUser u ls).2 = Accounts.USERS ls).
Proof.
  unfold Accounts.setCurrentUser, Accounts.getCurrentUser,
    Accounts.getCurrentUser_body.
  split_and!; try done.
  - by intros ->.
  - by intros e ->.
  - by intros ->.
  - intros [u|]; [|done]. by destruct (setItem_throws ls _).
Qed.
End accounts_facts.

Lemma Account_spread_id (a b : Account.t) :
  Account.id a = Account.id b → Account.id (Account.spread a b) = Account.id b.
Proof. done. Qed.

Lemma saveUser_then_getUsers_witness :
  ∃ stored',
    Accounts.getUsers
      (Accounts.saveUser Account.id Account.spread accept_accounts ann_again
         two_accounts)
    = Array stored'
    ∧ stored' !! 0%nat = Some ann
    ∧ stored' !! 1%nat = Some bob.
Proof.
  destruct (saveUser_then_getUsers Account.id Account.spread accept_accounts
              Account_spread_id ann_again two_accounts [ann; bob] eq_refl eq_refl)
    as (stored' & Hread & _ & _ & Hother & _ & Hmerged & _).
  exists stored'. split_and!.
  - exact Hread.
  - exact (Hmerged 0%nat ann eq_refl).
  - apply (Hother 1%nat bob eq_refl). discriminate.
Defined.

Lemma saveUser_on_refusal_and_corruption_witness :
  Accounts.USERS
    (Accounts.saveUser Account.id Account.spread accept_accounts bob
       corrupted_accounts)
  = Some (Json [bob])
  ∧ Accounts.getUsers
      (Accounts.saveUser Account.id Account.spread (λ _ _, Some QuotaExceededError)
         ann_again two_accounts)
    = Array [ann; bob].
Proof.
  destruct (saveUser_on_refusal_and_corruption Account.id Account.spread
              accept_accounts bob corrupted_accounts) as (_ & Hbad & _).
  destruct (saveUser_on_refusal_and_corruption Account.id Account.spread
              (λ _ _, Some QuotaExceededError) ann_again two_accounts)
    as (Hrefused & _).
  split.
  - exact (proj2 (Hbad eq_refl) eq_refl).
  - rewrite (proj2 (Hrefused QuotaExceededError eq_refl)). reflexivity.
Defined.

Lemma setCurrentUser_then_getCurrentUser_witness :
  Accounts.getCurrentUser
    (Accounts.setCurrentUser accept_accounts (Some ann) two_accounts).2 = Some ann
  ∧ Accounts.getCurrentUser corrupted_accounts = None.
Proof.
  destruct (setCurrentUser_then_getCurrentUser accept_accounts ann two_accounts)
    as (Hset & _).
  destruct (setCurrentUser_then_getCurrentUser accept_accounts ann
              corrupted_accounts) as (_ & _ & _ & _ & Hbad & _).
  split; [exact (proj2 (Hset eq_refl))|exact (Hbad eq_refl)].
Defined.

(** * The batch and the store together *)

Section batch_and_store.
Variable setItem_throws : LocalStorage → Payload → option JsError.
Variable user : User.t.
Variable base64Promise : File.t → completion string.
Variable analyzeContract : string → string → completion ContractAnalysis.t.
Variable generateId : File.t → string.
Variable Date_now : File.t → Z.
Variable toISOString : Z → string.

Local Abbreviation newContract := (newContract_of user generateId Date_now).
Local Abbreviation recentAnalysis := (recentAnalysis_of toISOString).
Local Abbreviation process :=
  (processFile setItem_throws user base64Promise analyzeContract generateId
     Date_now toISOString).
Local Abbreviation process_all :=
  (Promise_all_processFile setItem_throws user base64Promise analyzeContract
     generateId Date_now toISOString).
Local Abbreviation analyze_all :=
  (handleAnalyzeAll setItem_throws user base64Promise analyzeContract
     generateId Date_now toISOString).
Local Abbreviation succeeds_with :=
  (Dispatch.succeeds_with setItem_throws user base64Promise analyzeContract
     generateId Date_now).
Local Abbreviation drawn_id :=
  (λ f : FileUploadState.t, generateId (FileUploadState.file f)).
Local Abbreviation stored_as doc ls :=
  (∃ stored, getContractById (Contract.id doc) ls = Some stored
             ∧ (stored = doc ∨ stored = Contract.without_fileData doc)).

Lemma getContractById_same_documents (id : string) (ls1 ls2 : LocalStorage) :
  CONTRACTS ls1 = CONTRACTS ls2 → getContractById id ls1 = getContractById id ls2.
Proof.
  intros H. unfold getContractById, getContractById_body. by rewrite H.
Qed.

(** A dispatch changes the lookup of no id but the one it draws. *)
Lemma processFile_lookup_frame (fileState : FileUploadState.t) (ls : LocalStorage)
    (id : string) :
  id ≠ drawn_id fileState →
  getContractById id (process fileState ls).2 = getContractById id ls.
Proof.
  intros Hne. unfold processFile, processFile_try, bind, lift, ret.
  destruct (base64Promise _) as [b|e]; [|done].
  destruct (analyzeContract _ _) as [an|e]; [|done].
  set (doc := newContract (FileUploadState.file fileState) b an).
  destruct (saveContract setItem_throws doc ls) as [[r|e] ls1] eqn:Hsave.
  - destruct (saveContract_read_back setItem_throws doc r ls ls1 Hsave)
      as (_ & _ & Hother).
    rewrite <- (Hother id) by done.
    pose proof (saveRecentAnalysis_returns setItem_throws (recentAnalysis doc an)
                  ls1) as (Hret & Hcontracts).
    destruct (saveRecentAnalysis _ _ _) as [[[]|?] ls2]; simpl in *; [|done].
    by apply getContractById_same_documents.
  - simpl. apply getContractById_same_documents.
    destruct (saveContract_outcomes setItem_throws doc ls) as (_ & Hcases).
    rewrite Hsave in Hcases. simpl in Hcases.
    destruct Hcases as [(e0 & _ & _ & [= _ ->])
                       |(all & _ & [([=] & _)|(_ & Hc & _)])]; done.
Qed.

Lemma process_all_lookup_frame (l : list FileUploadState.t) (ls : LocalStorage)
    (id : string) :
  id ∉ drawn_id <$> l →
  getContractById id (process_all l ls).2 = getContractById id ls.
Proof.
  revert ls. induction l as [|f l IH]; intros ls Hid; [done|].
  rewrite fmap_cons in Hid. apply not_elem_of_cons in Hid as [Hne Hid].
  simpl. destruct (process f ls) as [res ls1] eqn:Hres.
  specialize (IH ls1 Hid). destruct (process_all l ls1) as [rs ls2]. simpl in *.
  rewrite IH. replace ls1 with (process f ls).2 by by rewrite Hres.
  by apply processFile_lookup_frame.
Qed.

(** The document of a successful dispatch can be looked up afterwards. *)
Lemma processFile_stored (fileState : FileUploadState.t) (ls : LocalStorage)
    (doc : Contract.t) :
  FileUploadState.status (process fileState ls).1 = success →
  FileUploadState.contract (process fileState ls).1 = Some doc →
  Contract.id doc = drawn_id fileState
  ∧ stored_as doc (process fileState ls).2.
Proof.
  intros Hs Hc.
  destruct (processFile_terminal setItem_throws user base64Promise analyzeContract
              generateId Date_now toISOString fileState ls)
    as [(doc' & Hok & _ & Hc')|(_ & Herr)]; [|by rewrite Herr in Hs].
  assert (doc' = doc) as -> by congruence.
  destruct (processFile_success_storage setItem_throws user base64Promise
              analyzeContract generateId Date_now toISOString fileState ls doc Hok)
    as (an & ls1 & _ & Hdoc & Hsave & Hls').
  split; [by rewrite Hdoc|].
  destruct (saveContract_read_back setItem_throws doc doc ls ls1 Hsave)
    as (_ & (stored & Hget & Hwhich & _) & _).
  exists stored. split; [|done]. rewrite <- Hget.
  apply getContractById_same_documents. rewrite Hls'.
  by destruct (saveRecentAnalysis_returns setItem_throws (recentAnalysis doc an)
                 ls1) as (_ & ->).
Qed.

Lemma process_all_stored (l : list FileUploadState.t) (ls : LocalStorage) :
  NoDup (drawn_id <$> l) →
  Forall2 (λ f res, ∀ doc,
             FileUploadState.status res = success →
             FileUploadState.contract res = Some doc →
             stored_as doc (process_all l ls).2)
    l (process_all l ls).1.
Proof.
  revert ls. induction l as [|f l IH]; intros ls Hnd; [constructor|].
  rewrite fmap_cons in Hnd. apply NoDup_cons in Hnd as [Hf Hnd].
  simpl. destruct (process f ls) as [res ls1] eqn:Hres.
  specialize (IH ls1 Hnd).
  pose proof (process_all_lookup_frame l ls1) as Hframe.
  destruct (process_all l ls1) as [rs ls2]. simpl in *.
  constructor; [|done].
  intros doc Hs Hc.
  destruct (processFile_stored f ls doc) as (Hid & stored & Hget & Hwhich);
    [by rewrite Hres..|].
  rewrite Hres in Hget. simpl in Hget.
  exists stored. split; [|done]. rewrite Hframe; [done|]. by rewrite Hid.
Qed.

(** X22. With distinct [File] objects and distinct drawn identifiers, every
    item that [handleAnalyzeAll] dispatched and left in success has its
    document in the storage the call leaves: the lookup by the document's
    id finds the document, or its copy without [fileData] after a capacity
    retry. *)
Theorem AnalyzeAll_success_items_are_stored
    (st : ComponentState) (ls : LocalStorage)
    (Hfresh : NoDup (file_ref <$> files st))
    (Hids : NoDup (drawn_id <$> filter (λ f, is_pending f) (files st))) :
  let out := analyze_all st ls in
  Forall2
    (λ before after,
       is_pending before →
       ∀ doc,
         FileUploadState.status after = success →
         FileUploadState.contract after = Some doc →
         ∃ stored,
           getContractById (Contract.id doc) (storage_after out) = Some stored
           ∧ (stored = doc ∨ stored = Contract.without_fileData doc))
    (files st) (files (state_after out)).
Proof.
  intros out. subst out.
  destruct (handleAnalyzeAll_fields setItem_throws user base64Promise
              analyzeContract generateId Date_now toISOString st ls)
    as (_ & _ & -> & _).
  rewrite (handleAnalyzeAll_files setItem_throws user base64Promise
             analyzeContract generateId Date_now toISOString st ls Hfresh).
  eapply Forall2_impl;
    [apply replace_pending_Forall2, (process_all_stored _ ls Hids)|].
  intros before after H Hp. simpl in H.
  by destruct (decide (is_pending before)).
Qed.

(** X23. With distinct [File] objects and no item in processing when it is
    called, [handleAnalyzeAll] leaves every item in success or in error:
    nothing stays in processing, so the file input and the Analyze button
    are not left disabled by [hasProcessing]. *)
Theorem AnalyzeAll_leaves_nothing_processing
    (st : ComponentState) (ls : LocalStorage)
    (Hfresh : NoDup (file_ref <$> files st))
    (Hidle : hasProcessing st = false) :
  let out := analyze_all st ls in
  Forall (λ f, FileUploadState.status f = success
               ∨ FileUploadState.status f = error)
    (files (state_after out))
  ∧ hasProcessing (state_after out) = false.
Proof.
  intros out.
  assert (Forall (λ f, FileUploadState.status f = success
                       ∨ FileUploadState.status f = error)
            (files (state_after out))) as Hterminal.
  { subst out.
    rewrite (handleAnalyzeAll_files setItem_throws user base64Promise
               analyzeContract generateId Date_now toISOString st ls Hfresh).
    eapply Forall2_Forall_r.
    - apply replace_pending_Forall2,
        (process_all_results setItem_throws user base64Promise analyzeContract
           generateId Date_now toISOString).
    - apply Forall_forall. intros before Hin after.
      destruct (decide (is_pending before)) as [Hp|Hp].
      + intros [ls_i ->].
        destruct (processFile_terminal setItem_throws user base64Promise
                    analyzeContract generateId Date_now toISOString before ls_i)
          as [(doc & _ & Hs & _)|(_ & ->)]; [by left|by right].
      + intros ->.
        unfold hasProcessing in Hidle. apply bool_decide_eq_false in Hidle.
        destruct (FileUploadState.status before) eqn:Hstatus;
          [done| |by left|by right].
        exfalso. apply Hidle, Exists_exists. by exists before. }
  split; [done|].
  unfold hasProcessing. apply bool_decide_eq_false.
  intros (f & Hin & Hproc)%Exists_exists.
  eapply Forall_forall in Hterminal; [|exact Hin].
  destruct Hterminal as [H|H]; congruence.
Qed.
End batch_and_store.

Lemma AnalyzeAll_success_items_are_stored_witness :
  getContractById "id-c.pdf"
    (storage_after (handleAnalyzeAll no_room_for_fileData alice reader client
                      id_of clock iso two_pending empty_storage))
  = Some (Contract.without_fileData c_pdf_contract).
Proof.
  assert (NoDup (file_ref <$> files two_pending)) as Hfresh.
  { apply (bool_decide_unpack _). by vm_compute. }
  assert (NoDup ((λ f, id_of (FileUploadState.file f))
                 <$> filter (λ f, is_pending f) (files two_pending))) as Hids.
  { apply (bool_decide_unpack _). by vm_compute. }
  pose proof (AnalyzeAll_success_items_are_stored no_room_for_fileData alice
                reader client id_of clock iso two_pending empty_storage
                Hfresh Hids) as H.
  reflexivity.
Defined.

Lemma AnalyzeAll_leaves_nothing_processing_witness :
  hasProcessing
    (state_after (handleAnalyzeAll accept_all alice reader client id_of clock iso
                    two_pending empty_storage)) = false.
Proof.
  refine (proj2 (AnalyzeAll_leaves_nothing_processing accept_all alice reader
                   client id_of clock iso two_pending empty_storage _ eq_refl)).
  apply (bool_decide_unpack _). by vm_compute.
Defined.

(** * Properties of the sign-in form *)

Section pattern_facts.
Import Auth.

Lemma test_Many_run (p : N → bool) (rest : list atom) (run s : JsString) :
  run ≠ [] → Forall (λ c, p c = true) run → test s rest = true →
  test (run ++ s) (Many p :: rest) = true.
Proof.
  intros Hne Hrun Hrest. induction Hrun as [|c run Hc Hrun IH]; [done|].
  simpl. rewrite Hc. simpl. destruct run as [|c' run'].
  - simpl. by rewrite Hrest.
  - rewrite IH by done. apply orb_true_r.
Qed.

(** The test of a pattern decides matching. *)
Lemma test_Matches (s : JsString) (pattern : list atom) :
  test s pattern = true ↔ Matches pattern s.
Proof.
  split.
  - revert pattern. induction s as [|c s IH]; intros [|[p|p] rest] H;
      simpl in H; try done.
    + constructor.
    + apply andb_true_iff in H as [Hc H]. constructor; [done|by apply IH].
    + apply andb_true_iff in H as [Hc H]. apply orb_true_iff in H as [H|H].
      * apply (Matches_Many p rest [c] s); [done|by constructor|by apply IH].
      * apply IH in H. inversion H as [| |p' rest' run s2 Hne Hrun Hrest]; subst.
        apply (Matches_Many p rest (c :: run) s2); [done|by constructor|done].
  - induction 1 as [|p rest c s Hc _ IH|p rest run s Hne Hrun _ IH].
    + done.
    + simpl. by rewrite Hc, IH.
    + by apply test_Many_run.
Qed.

Lemma trimStart_spec (s : JsString) :
  ∃ spaces, s = spaces ++ trimStart s
            ∧ Forall (λ c, is_space c = true) spaces
            ∧ (∀ c, head (trimStart s) = Some c → is_space c = false).
Proof.
  induction s as [|c s (sp & Hs & Hsp & Hhead)]; simpl.
  - exists []. by repeat split.
  - destruct (is_space c) eqn:Hc.
    + exists (c :: sp). split_and!; [by rewrite Hs at 1|by constructor|done].
    + exists []. split_and!; [done|constructor|]. by intros ? [= <-].
Qed.

Lemma trimEnd_spec (s : JsString) :
  ∃ spaces, s = trimEnd s ++ spaces
            ∧ Forall (λ c, is_space c = true) spaces
            ∧ (∀ c, last (trimEnd s) = Some c → is_space c = false).
Proof.
  unfold trimEnd.
  destruct (trimStart_spec (reverse s)) as (sp & Hs & Hsp & Hhead).
  exists (reverse sp). split_and!.
  - rewrite <- reverse_app, <- Hs. by rewrite reverse_involutive.
  - by apply Forall_reverse.
  - intros c. rewrite last_reverse. apply Hhead.
Qed.

(** [trim] keeps the middle of the string: what it drops on both sides is
    whitespace, and what it keeps neither starts nor ends with whitespace. *)
Lemma trim_spec (s : JsString) :
  ∃ before after,
    s = before ++ trim s ++ after
    ∧ Forall (λ c, is_space c = true) before
    ∧ Forall (λ c, is_space c = true) after
    ∧ (∀ c, head (trim s) = Some c → is_space c = false)
    ∧ (∀ c, last (trim s) = Some c → is_space c = false).
Proof.
  unfold trim.
  destruct (trimStart_spec s) as (before & Hs & Hbefore & Hhead).
  destruct (trimEnd_spec (trimStart s)) as (after & Ht & Hafter & Hlast).
  exists before, after. split_and!; [|done..| |done].
  - by rewrite <- Ht.
  - intros c Hc. apply Hhead. rewrite Ht.
    destruct (trimEnd (trimStart s)); [done|]. exact Hc.
Qed.

Lemma class_has_no_at (run : JsString) :
  Forall (λ c, not_space_or_at c = true) run →
  Forall (λ c, is_space c = false) run
  ∧ filter (λ c, c = at_sign) run = [].
Proof.
  intros Hrun. split.
  - eapply Forall_impl; [exact Hrun|]. simpl. intros c Hc.
    unfold not_space_or_at in Hc. apply andb_true_iff in Hc as [Hc _].
    by apply negb_true_iff.
  - apply filter_none. eapply Forall_impl; [exact Hrun|]. simpl. intros c Hc ->.
    unfold not_space_or_at in Hc. by apply andb_true_iff in Hc as [_ Hc].
Qed.

(** The shape of the strings [validateEmail] accepts. *)
Lemma validateEmail_split (email : JsString) :
  validateEmail email = true
  ↔ ∃ local domain tld,
      email = local ++ [at_sign] ++ domain ++ [full_stop] ++ tld
      ∧ local ≠ [] ∧ domain ≠ [] ∧ tld ≠ []
      ∧ Forall (λ c, not_space_or_at c = true) local
      ∧ Forall (λ c, not_space_or_at c = true) domain
      ∧ Forall (λ c, not_space_or_at c = true) tld.
Proof.
  unfold validateEmail. rewrite test_Matches. unfold email_pattern. split.
  - intros H.
    inversion H as [| |p1 r1 local s1 Hl1 Hl2 H1]; subst.
    inversion H1 as [|p2 r2 c2 s2 Hc2 H2|]; subst.
    inversion H2 as [| |p3 r3 domain s3 Hd1 Hd2 H3]; subst.
    inversion H3 as [|p4 r4 c4 s4 Hc4 H4|]; subst.
    inversion H4 as [| |p5 r5 tld s5 Ht1 Ht2 H5]; subst.
    inversion H5; subst.
    apply N.eqb_eq in Hc2 as <-. apply N.eqb_eq in Hc4 as <-.
    exists local, domain, tld. rewrite app_nil_r. by split_and!.
  - intros (local & domain & tld & -> & Hl & Hd & Ht & Hlc & Hdc & Htc).
    apply Matches_Many; [done..|]. apply Matches_One; [done|].
    apply Matches_Many; [done..|]. apply Matches_One; [done|].
    rewrite <- (app_nil_r tld). apply Matches_Many; [done..|]. constructor.
Qed.

Lemma validateEmail_consequences (email : JsString) :
  validateEmail email = true →
  Forall (λ c, is_space c = false) email
  ∧ length (filter (λ c, c = at_sign) email) = 1%nat
  ∧ (5 ≤ length email)%nat.
Proof.
  intros (local & domain & tld & -> & Hl & Hd & Ht & Hlc & Hdc & Htc)%validateEmail_split.
  destruct (class_has_no_at local Hlc) as [Hl1 Hl2].
  destruct (class_has_no_at domain Hdc) as [Hd1 Hd2].
  destruct (class_has_no_at tld Htc) as [Ht1 Ht2].
  split_and!.
  - repeat (apply Forall_app; split); try done; by repeat constructor.
  - unfold JsString in *. rewrite !filter_app, Hl2, Hd2, Ht2. reflexivity.
  - rewrite !length_app. simpl.
    destruct local, domain, tld; simpl; try done; lia.
Qed.
End pattern_facts.

(** X24. [validateEmail] accepts exactly the strings made of a local part,
    an at sign, a domain, a full stop and an ending, the three parts being
    non-empty and free of whitespace and at signs (the domain and the
    ending may hold further full stops).  An accepted string therefore has
    no whitespace, exactly one at sign and at least five code units. *)
Theorem validateEmail_accepts_local_at_domain_dot_tld (email : Auth.JsString) :
  (Auth.validateEmail email = true
   ↔ ∃ local domain tld,
       email = local ++ [Auth.at_sign] ++ domain ++ [Auth.full_stop] ++ tld
       ∧ local ≠ [] ∧ domain ≠ [] ∧ tld ≠ []
       ∧ Forall (λ c, Auth.not_space_or_at c = true) local
       ∧ Forall (λ c, Auth.not_space_or_at c = true) domain
       ∧ Forall (λ c, Auth.not_space_or_at c = true) tld)
  ∧ (Auth.validateEmail email = true →
     Forall (λ c, Auth.is_space c = false) email
     ∧ length (filter (λ c, c = Auth.at_sign) email) = 1%nat
     ∧ (5 ≤ length email)%nat).
Proof.
  split; [apply validateEmail_split|apply validateEmail_consequences].
Qed.

Lemma validateEmail_accepts_local_at_domain_dot_tld_witness :
  Auth.validateEmail (units "ann@x.org") = true
  ∧ length (filter (λ c, c = Auth.at_sign) (units "ann@x.org")) = 1%nat.
Proof.
  destruct (validateEmail_accepts_local_at_domain_dot_tld (units "ann@x.org"))
    as (Hshape & Hcons).
  assert (Auth.validateEmail (units "ann@x.org") = true) as Hvalid.
  { apply Hshape. exists (units "ann"), (units "x"), (units "org").
    split_and!; try done; by repeat constructor. }
  split; [exact Hvalid|]. exact (proj1 (proj2 (Hcons Hvalid))).
Defined.

(** X25. [handleSubmit] calls [onLogin] exactly when the trimmed and
    lower-cased email passes [validateEmail], the password has at least six
    code units and, when signing up, the name is not blank; it then clears
    the error, and otherwise sets one and does not call [onLogin].  The
    email handed to [onLogin] has no whitespace and exactly one at sign;
    the name handed over is "User" when signing in and otherwise the typed
    name without the whitespace around it, which is not empty. *)
Theorem handleSubmit_logs_in_only_with_valid_input
    (toLowerCase : Auth.JsString → Auth.JsString) (st : Auth.State) :
  let out := Auth.handleSubmit toLowerCase st in
  let normalizedEmail := toLowerCase (Auth.trim (Auth.email st)) in
  (∀ email name,
     Auth.onLogin out = Some (email, name)
     ↔ Auth.validateEmail normalizedEmail = true
       ∧ (6 ≤ length (Auth.password st))%nat
       ∧ (Auth.isLogin st = true ∨ Auth.trim (Auth.name st) ≠ [])
       ∧ email = normalizedEmail
       ∧ name = (if Auth.isLogin st then Auth.User_literal
                 else Auth.trim (Auth.name st)))
  ∧ (Auth.error_after out = None ↔ is_Some (Auth.onLogin out))
  ∧ (∀ email name,
       Auth.onLogin out = Some (email, name) →
       Forall (λ c, Auth.is_space c = false) email
       ∧ length (filter (λ c, c = Auth.at_sign) email) = 1%nat
       ∧ name ≠ []
       ∧ (∀ c, head name = Some c → Auth.is_space c = false)
       ∧ (∀ c, last name = Some c → Auth.is_space c = false)).
Proof.
  intros out normalizedEmail.
  assert (∀ email name,
            Auth.onLogin out = Some (email, name)
            ↔ Auth.validateEmail normalizedEmail = true
              ∧ (6 ≤ length (Auth.password st))%nat
              ∧ (Auth.isLogin st = true ∨ Auth.trim (Auth.name st) ≠ [])
              ∧ email = normalizedEmail
              ∧ name = (if Auth.isLogin st then Auth.User_literal
                        else Auth.trim (Auth.name st))) as Hiff.
  { intros email name. subst out. unfold Auth.handleSubmit.
    fold normalizedEmail.
    destruct (Auth.validateEmail normalizedEmail); simpl;
      [|split; [done|by intros (? & _)]].
    case_bool_decide as Hpw; simpl; [split; [done|intros (_ & ? & _); lia]|].
    destruct (Auth.isLogin st); simpl.
    - split.
      + intros [= <- <-]. split_and!; [done|lia|by left|done..].
      + by intros (_ & _ & _ & -> & ->).
    - case_bool_decide as Hname; simpl.
      + split; [done|]. by intros (_ & _ & [?|?] & _).
      + split.
        * intros [= <- <-]. split_and!; [done|lia|by right|done..].
        * by intros (_ & _ & _ & -> & ->). }
  split_and!; [exact Hiff| |].
  - subst out. unfold Auth.handleSubmit.
    destruct (negb _); simpl; [split; [done|by intros [? ?]]|].
    case_bool_decide; simpl; [split; [done|by intros [? ?]]|].
    destruct (negb _ && _); simpl; [split; [done|by intros [? ?]]|].
    split; [by eexists|done].
  - intros email name (Hvalid & _ & Hname & -> & ->)%Hiff.
    destruct (validateEmail_consequences _ Hvalid) as (Hsp & Hat & _).
    split_and!; [done..| | |].
    + destruct (Auth.isLogin st); [done|]. by destruct Hname.
    + destruct (Auth.isLogin st).
      * by intros c [= <-].
      * by destruct (trim_spec (Auth.name st)) as (? & ? & _ & _ & _ & H & _).
    + destruct (Auth.isLogin st).
      * by intros c [= <-].
      * by destruct (trim_spec (Auth.name st)) as (? & ? & _ & _ & _ & _ & H).
Qed.

Lemma handleSubmit_logs_in_only_with_valid_input_witness :
  Auth.onLogin
    (Auth.handleSubmit (λ s, s)
       (Auth.mkState false (units "  ann@x.org ") (units "secret")
          (units " Ann Lee ") None))
  = Some (units "ann@x.org", units "Ann Lee").
Proof.
  apply (handleSubmit_logs_in_only_with_valid_input (λ s, s)
           (Auth.mkState false (units "  ann@x.org ") (units "secret")
              (units " Ann Lee ") None)).
  split_and!; [reflexivity|simpl; lia|by right|reflexivity..].
Defined.
